(** * ConcurrentLRUCache: a sharded LRU cache

    A shallow embedding of [src/common/base/ConcurrentLRUCache.h] and the
    properties of its specification.

    The header defines three classes, bottom-up:
    - [LRU]: a [std::list] of keys in recency order plus a
      [std::unordered_map] from key to (value, iterator into the list);
    - [ConcurrentLRUCache::Bucket]: one [LRU] behind a mutex;
    - [ConcurrentLRUCache]: a vector of buckets and the routing of every
      call to one of them.

    Conventions of the embedding.
    - Fixed-width integers are [Z] with the wrap-around written out
      ([to_uint32], [to_int32], [to_uint64]).  Arithmetic on [int] wraps
      in two's complement.
    - A [std::list] iterator is the identity of a list node ([iter]).  The
      list is a Rocq list of (node, key) pairs, head first.  A freshly
      allocated node is any identity that no live node has; an erased node's
      identity may be handed out again, as an allocator may do.
    - An operation that can run into undefined behaviour of the C++
      (erasing through an iterator of no live node, decrementing [begin()]
      of an empty list, indexing the vector out of range) returns [option],
      [None] standing for that.  For the constructor [None] stands for the
      fatal [CHECK].  The invariant below shows that no call on a
      constructed cache ever returns [None].
    - [size_t] is 64 bits wide, [int] and [uint32_t] 32 bits.
    - The mutex of a bucket is not modelled: operations are taken one at a
      time, which is what the lock guarantees per bucket. *)

From stdpp Require Import numbers option list gmap.

(** ** Fixed-width integers *)

Definition to_uint32 (z : Z) : Z := (z mod 2 ^ 32)%Z.
Definition to_uint64 (z : Z) : Z := (z mod 2 ^ 64)%Z.
Definition to_int32 (z : Z) : Z := ((z + 2 ^ 31) mod 2 ^ 32 - 2 ^ 31)%Z.

(** [1 << e] on [int].  The C++ defines the shift for [e] below the width
    of [int] only; see [ConcurrentLRUCache.args_ok]. *)
Definition shl1 (e : Z) : Z := to_int32 (Z.shiftl 1 e).

(** ** Status and StatusOr *)

(** Modelled from the spec: [Status] and [StatusOr] come from
    [base/Status.h] and [base/StatusOr.h], which are not part of the
    sources.  The header uses two statuses, [Status::Error()] (the
    NotFound-style result of [get]) and [Status::Inserted()] (the marker
    returned by [putIfAbsent]); a [StatusOr<V>] is either a status or a
    value. *)
Inductive Status := Error | Inserted.

(** Modelled from the spec: the result type of [get] and [putIfAbsent],
    "value or NotFound" and "Inserted marker, or existing value". *)
Inductive StatusOr (V : Type) :=
  | OfStatus (s : Status)
  | OfValue (v : V).
Arguments OfStatus {V} s.
Arguments OfValue {V} v.

(** ** std::list with stable iterators *)

Definition iter := nat.

Module StdList.
Section defs.
Context {K : Type}.

(** [begin()]; [None] is [end()]. *)
Definition begin (l : list (iter * K)) : option iter := head l.*1.

(** The node a [push_front] allocates. *)
Definition new_node (l : list (iter * K)) : iter := S (max_list l.*1).

Definition push_front (key : K) (l : list (iter * K)) : list (iter * K) :=
  (new_node l, key) :: l.

(** [erase(j)]: unlink the node [j]; undefined when [j] is not a node of
    the list. *)
Fixpoint erase (j : iter) (l : list (iter * K)) : option (list (iter * K)) :=
  match l with
  | [] => None
  | n :: l' =>
      if decide (n.1 = j) then Some l'
      else l'' ← erase j l'; Some (n :: l'')
  end.

(** [--end()]: the last node; undefined on an empty list. *)
Definition back (l : list (iter * K)) : option (iter * K) := list.last l.
End defs.
End StdList.

(** ** class LRU *)

Module LRU.
Section defs.
Context {K : Type} `{Countable K} {V : Type}.

Record t := mk {
  map_ : gmap K (V * iter);
  list_ : list (iter * K);
  capacity_ : Z;
}.

Definition create (capacity : Z) : t :=
  {| map_ := ∅; list_ := []; capacity_ := capacity |}.

Definition size (l : t) : Z := Z.of_nat (base.size (map_ l)).

Definition capacity (l : t) : Z := capacity_ l.

Definition empty (l : t) : bool := bool_decide (map_ l = ∅).

Definition contains (key : K) (l : t) : bool :=
  bool_decide (is_Some (map_ l !! key)).

(** The private overload [evict()]: drop the node at the tail. *)
Definition evict_oldest (l : t) : option t :=
  i ← StdList.back (list_ l);
  let m := delete i.2 (map_ l) in
  lst ← StdList.erase i.1 (list_ l);
  Some {| map_ := m; list_ := lst; capacity_ := capacity_ l |}.

Definition insert (key : K) (value : V) (l : t) : option t :=
  match map_ l !! key with
  | Some _ => Some l
  | None =>
      l1 ← (if bool_decide (capacity_ l ≤ size l)%Z
            then evict_oldest l else Some l);
      let lst := StdList.push_front key (list_ l1) in
      j ← StdList.begin lst;
      Some {| map_ := <[key := (value, j)]> (map_ l1);
              list_ := lst;
              capacity_ := capacity_ l1 |}
  end.

Definition get (key : K) (l : t) : option (option V * t) :=
  match map_ l !! key with
  | None => Some (None, l)
  | Some (value, j) =>
      if bool_decide (StdList.begin (list_ l) = Some j)
      then Some (Some value, l)
      else
        lst ← StdList.erase j (list_ l);
        let lst := StdList.push_front key lst in
        j' ← StdList.begin lst;
        Some (Some value,
              {| map_ := <[key := (value, j')]> (map_ l);
                 list_ := lst;
                 capacity_ := capacity_ l |})
  end.

Definition evict (key : K) (l : t) : option t :=
  match map_ l !! key with
  | Some (_, j) =>
      lst ← StdList.erase j (list_ l);
      Some {| map_ := delete key (map_ l);
              list_ := lst;
              capacity_ := capacity_ l |}
  | None => Some l
  end.

Definition clear (l : t) : t :=
  {| map_ := ∅; list_ := []; capacity_ := capacity_ l |}.

(** *** Observations and representation invariant *)

(** The keys in recency order, most recently used first. *)
Definition keys (l : t) : list K := (list_ l).*2.

(** The value stored for a key. *)
Definition value (key : K) (l : t) : option V := fst <$> map_ l !! key.

(** The list and the map describe the same entries: every node is live
    once, every key has one node, and the iterator the map stores for a
    key is the node of that key. *)
Record linked (l : t) : Prop := {
  linked_nodes : NoDup (list_ l).*1;
  linked_keys : NoDup (list_ l).*2;
  linked_iter : ∀ j k, (j, k) ∈ list_ l ↔ ∃ v, map_ l !! k = Some (v, j);
}.

Record wf (l : t) : Prop := {
  wf_linked : linked l;
  wf_size : (size l ≤ capacity_ l)%Z;
  wf_capacity : (0 < capacity_ l)%Z;
}.
End defs.
Arguments t K {_ _} V.
End LRU.

(** ** class ConcurrentLRUCache::Bucket *)

Module Bucket.
Section defs.
Context {K : Type} `{Countable K} {V : Type}.

Record t := mk { lru_ : LRU.t K V }.

Definition create (capacity : Z) : t := {| lru_ := LRU.create capacity |}.

Definition contains (key : K) (b : t) : bool := LRU.contains key (lru_ b).

Definition insert (key : K) (val : V) (b : t) : option t :=
  l ← LRU.insert key val (lru_ b); Some {| lru_ := l |}.

Definition get (key : K) (b : t) : option (StatusOr V * t) :=
  r ← LRU.get key (lru_ b);
  match r.1 with
  | None => Some (OfStatus Error, {| lru_ := r.2 |})
  | Some v => Some (OfValue v, {| lru_ := r.2 |})
  end.

Definition putIfAbsent (key : K) (val : V) (b : t) : option (StatusOr V * t) :=
  r ← LRU.get key (lru_ b);
  match r.1 with
  | None =>
      l ← LRU.insert key val r.2;
      Some (OfStatus Inserted, {| lru_ := l |})
  | Some v => Some (OfValue v, {| lru_ := r.2 |})
  end.

Definition evict (key : K) (b : t) : option t :=
  l ← LRU.evict key (lru_ b); Some {| lru_ := l |}.

Definition clear (b : t) : t := {| lru_ := LRU.clear (lru_ b) |}.

(** [b'] is a well-formed bucket of the capacity of [b]. *)
Definition kept (b b' : t) : Prop :=
  LRU.wf (lru_ b') ∧ LRU.capacity_ (lru_ b') = LRU.capacity_ (lru_ b).
End defs.
Arguments t K {_ _} V.
End Bucket.

(** ** class ConcurrentLRUCache *)

Module ConcurrentLRUCache.

(** The arguments the constructor is defined on: [capacity] is a [size_t],
    and [1 << bucketsExp] needs [bucketsExp] below the width of [int]. *)
Definition args_ok (capacity bucketsExp : Z) : Prop :=
  (0 ≤ capacity < 2 ^ 64)%Z ∧ (0 ≤ bucketsExp < 32)%Z.

Definition total (l : list Z) : Z := foldr Z.add 0%Z l.

Section defs.
Context {K : Type} `{Countable K} {V : Type}.

(** [std::hash<K>()], a [size_t]. *)
Variable hash : K → Z.

Record t := mk {
  buckets_ : list (Bucket.t K V);
  bucketsNum_ : Z;
  bucketsExp_ : Z;
}.

(** The loop of the constructor: [n] rounds of
    [buckets_.emplace_back(capPerBucket); left -= capPerBucket]. *)
Fixpoint fill (n : nat) (capPerBucket : Z)
    (buckets : list (Bucket.t K V)) (left : Z) : list (Bucket.t K V) * Z :=
  match n with
  | O => (buckets, left)
  | S n' =>
      fill n' capPerBucket (buckets ++ [Bucket.create capPerBucket])
        (to_uint64 (left - capPerBucket))
  end.

(** The constructor; [None] when one of the two fatal assertions ([CHECK],
    [CHECK_GT]) fails. *)
Definition construct (capacity bucketsExp : Z) : option t :=
  let bucketsNum := to_uint32 (shl1 bucketsExp) in
  if bool_decide (bucketsNum < capacity ∧ 0 < bucketsNum)%Z then
    let capPerBucket := Z.shiftr capacity bucketsExp in
    let r := fill (Z.to_nat (to_uint32 (bucketsNum - 1))) capPerBucket [] capacity in
    if bool_decide (0 < r.2)%Z then
      Some {| buckets_ := r.1 ++ [Bucket.create r.2];
              bucketsNum_ := bucketsNum;
              bucketsExp_ := bucketsExp |}
    else None
  else None.

(** [(1 << bucketsExp_) - 1] on [int]. *)
Definition mask (c : t) : Z := to_int32 (shl1 (bucketsExp_ c) - 1).

(** The two arms of the conditional have types [int] and [size_t]; the
    result is a [size_t], narrowed to [uint32_t] on return. *)
Definition bucketIndex (key : K) (hint : Z) (c : t) : Z :=
  if bool_decide (0 ≤ hint)%Z
  then to_uint32 (to_uint64 (Z.land hint (mask c)))
  else to_uint32 (Z.land (hash key) (to_uint64 (mask c))).

(** [buckets_[i]]; undefined out of range. *)
Definition bucket_at (i : Z) (c : t) : option (Bucket.t K V) :=
  buckets_ c !! Z.to_nat i.

Definition set_bucket (i : Z) (b : Bucket.t K V) (c : t) : t :=
  {| buckets_ := <[Z.to_nat i := b]> (buckets_ c);
     bucketsNum_ := bucketsNum_ c;
     bucketsExp_ := bucketsExp_ c |}.

Definition contains (key : K) (hint : Z) (c : t) : option bool :=
  b ← bucket_at (bucketIndex key hint c) c;
  Some (Bucket.contains key b).

Definition insert (key : K) (val : V) (hint : Z) (c : t) : option t :=
  let i := bucketIndex key hint c in
  b ← bucket_at i c;
  b' ← Bucket.insert key val b;
  Some (set_bucket i b' c).

Definition get (key : K) (hint : Z) (c : t) : option (StatusOr V * t) :=
  let i := bucketIndex key hint c in
  b ← bucket_at i c;
  r ← Bucket.get key b;
  Some (r.1, set_bucket i r.2 c).

Definition putIfAbsent (key : K) (val : V) (hint : Z) (c : t)
    : option (StatusOr V * t) :=
  let i := bucketIndex key hint c in
  b ← bucket_at i c;
  r ← Bucket.putIfAbsent key val b;
  Some (r.1, set_bucket i r.2 c).

Definition evict (key : K) (hint : Z) (c : t) : option t :=
  let i := bucketIndex key hint c in
  b ← bucket_at i c;
  b' ← Bucket.evict key b;
  Some (set_bucket i b' c).

(** The loop of [clear()]: [n] rounds of [buckets_[i].clear(); i++], the
    counter taking the values [0 .. bucketsNum_ - 1]. *)
Fixpoint clear_from (n : nat) (i : Z) (c : t) : option t :=
  match n with
  | O => Some c
  | S n' =>
      b ← bucket_at i c;
      clear_from n' (i + 1)%Z (set_bucket i (Bucket.clear b) c)
  end.

Definition clear (c : t) : option t :=
  clear_from (Z.to_nat (bucketsNum_ c)) 0 c.

(** *** Sequences of calls *)

Inductive op :=
  | Insert (key : K) (val : V) (hint : Z)
  | Get (key : K) (hint : Z)
  | PutIfAbsent (key : K) (val : V) (hint : Z)
  | Evict (key : K) (hint : Z)
  | Contains (key : K) (hint : Z)
  | Clear.

Definition step (o : op) (c : t) : option t :=
  match o with
  | Insert key val hint => insert key val hint c
  | Get key hint => r ← get key hint c; Some r.2
  | PutIfAbsent key val hint => r ← putIfAbsent key val hint c; Some r.2
  | Evict key hint => evict key hint c
  | Contains key hint => _ ← contains key hint c; Some c
  | Clear => clear c
  end.

Fixpoint run (ops : list op) (c : t) : option t :=
  match ops with
  | [] => Some c
  | o :: ops' => c' ← step o c; run ops' c'
  end.

(** *** Observations used in the statements *)

(** The keys of bucket [i], most recently used first. *)
Definition recency (i : Z) (c : t) : option (list K) :=
  b ← bucket_at i c; Some (LRU.keys (Bucket.lru_ b)).

(** The value bucket [i] stores for [key]. *)
Definition stored (key : K) (i : Z) (c : t) : option V :=
  b ← bucket_at i c; LRU.value key (Bucket.lru_ b).

Definition sizes (c : t) : list Z :=
  (λ b, LRU.size (Bucket.lru_ b)) <$> buckets_ c.

Definition capacities (c : t) : list Z :=
  (λ b, LRU.capacity (Bucket.lru_ b)) <$> buckets_ c.

(** The invariant of a constructed cache. *)
Record wf (c : t) : Prop := {
  wf_exp : (0 ≤ bucketsExp_ c < 32)%Z;
  wf_num : bucketsNum_ c = (2 ^ bucketsExp_ c)%Z;
  wf_len : Z.of_nat (length (buckets_ c)) = bucketsNum_ c;
  wf_buckets : Forall (λ b, LRU.wf (Bucket.lru_ b)) (buckets_ c);
}.

(** [c'] is a well-formed cache with the bucket capacities of [c]. *)
Definition kept (c c' : t) : Prop := wf c' ∧ capacities c' = capacities c.

(** The states a cache can be in: constructed, then any calls. *)
Inductive reachable : t → Prop :=
  | reachable_construct capacity bucketsExp c :
      args_ok capacity bucketsExp →
      construct capacity bucketsExp = Some c →
      reachable c
  | reachable_step o c c' :
      reachable c → step o c = Some c' → reachable c'.
End defs.
Arguments t K {_ _} V.
Arguments op K V : clear implicits.
End ConcurrentLRUCache.

(** ** A small instance

    Keys and values are integers, the hash is the key itself (as a
    [size_t]).  [fresh] is the cache built by
    [ConcurrentLRUCache<int64_t, int64_t>(8, 1)]: two buckets of capacity 4.
    [one] is [fresh] after [insert(7, 70, 0)]. *)

Module Example.
Import ConcurrentLRUCache.

Definition hash (k : Z) : Z := to_uint64 k.

Definition fresh : ConcurrentLRUCache.t Z Z :=
  {| buckets_ := [Bucket.create 4; Bucket.create 4];
     bucketsNum_ := 2;
     bucketsExp_ := 1 |}.

Definition one : ConcurrentLRUCache.t Z Z :=
  {| buckets_ :=
       [Bucket.mk (LRU.mk {[ 7%Z := (70%Z, 1) ]} [(1, 7%Z)] 4);
        Bucket.create 4];
     bucketsNum_ := 2;
     bucketsExp_ := 1 |}.
End Example.

(** Two more instances.  [full] is [Example.fresh] after the inserts of the
    keys 1, 2, 3, 4 under hint 0, which fill bucket 0.  [small] is the cache
    built by [ConcurrentLRUCache<int64_t, int64_t>(3, 1)]: its buckets have
    the capacities 1 and 2. *)

Module Example2.
Import ConcurrentLRUCache.

Definition fill_ops : list (op Z Z) :=
  [Insert 1 10 0; Insert 2 20 0; Insert 3 30 0; Insert 4 40 0]%Z.

Definition full : ConcurrentLRUCache.t Z Z :=
  default Example.fresh (run Example.hash fill_ops Example.fresh).

Definition small : ConcurrentLRUCache.t Z Z :=
  {| buckets_ := [Bucket.create 1; Bucket.create 2];
     bucketsNum_ := 2;
     bucketsExp_ := 1 |}.
End Example2.

(** * Properties *)

(** ** Fixed-width arithmetic *)

Section arith.
Local Open Scope Z_scope.

Lemma to_uint32_shl1 e : 0 ≤ e < 32 → to_uint32 (shl1 e) = 2 ^ e.
Proof.
  intros He. unfold to_uint32, shl1, to_int32.
  rewrite Z.shiftl_1_l.
  assert (0 < 2 ^ e < 2 ^ 32) as Hp.
  { split; [apply Z.pow_pos_nonneg; lia|apply Z.pow_lt_mono_r; lia]. }
  rewrite Zminus_mod_idemp_l.
  replace (2 ^ e + 2 ^ 31 - 2 ^ 31) with (2 ^ e) by lia.
  apply Z.mod_small. lia.
Qed.

Lemma mask_value e : 0 ≤ e < 32 → to_int32 (shl1 e - 1) = 2 ^ e - 1.
Proof.
  intros He. unfold shl1, to_int32.
  rewrite Z.shiftl_1_l.
  assert (0 < 2 ^ e <= 2 ^ 31) as Hp.
  { split; [apply Z.pow_pos_nonneg; lia|apply Z.pow_le_mono_r; lia]. }
  replace ((2 ^ e + 2 ^ 31) mod 2 ^ 32 - 2 ^ 31 - 1 + 2 ^ 31)
    with ((2 ^ e + 2 ^ 31) mod 2 ^ 32 + (- 1)) by lia.
  rewrite Zplus_mod_idemp_l.
  replace (2 ^ e + 2 ^ 31 + -1) with (2 ^ e - 1 + 2 ^ 31) by lia.
  rewrite Z.mod_small; lia.
Qed.

Lemma land_mask x e : 0 ≤ e → Z.land x (2 ^ e - 1) = x mod 2 ^ e.
Proof.
  intros He. rewrite <- Z.land_ones by done.
  by rewrite Z.ones_equiv, <- Z.sub_1_r.
Qed.

Lemma pow2_bounds e : 0 ≤ e < 32 → 0 < 2 ^ e < 2 ^ 32.
Proof.
  intros He. split; [apply Z.pow_pos_nonneg; lia|apply Z.pow_lt_mono_r; lia].
Qed.
End arith.

(** ** std::list *)

Section stdlist.
Context {K : Type} `{EqDecision K}.
Implicit Types (l : list (iter * K)) (j : iter) (k : K).

Lemma filter_all {A} (P : A → Prop) `{∀ x, Decision (P x)} (l : list A) :
  (∀ x, x ∈ l → P x) → filter P l = l.
Proof.
  induction l as [|x l IH]; intros HP; [done|].
  rewrite filter_cons_True by (apply HP; left).
  f_equal. apply IH. intros y Hy. apply HP. by right.
Qed.

Lemma new_node_fresh l : StdList.new_node l ∉ l.*1.
Proof.
  unfold StdList.new_node. intros Hin.
  apply max_list_elem_of_le in Hin. lia.
Qed.

Lemma node_key_unique l j k1 k2 :
  NoDup l.*1 → (j, k1) ∈ l → (j, k2) ∈ l → k1 = k2.
Proof.
  induction l as [|n l IH]; simpl; intros Hnd H1 H2; [by apply elem_of_nil in H1|].
  apply NoDup_cons in Hnd as [Hn Hnd].
  apply elem_of_cons in H1 as [E1|H1]; apply elem_of_cons in H2 as [E2|H2].
  - congruence.
  - exfalso. apply Hn. subst n. by apply (list_elem_of_fmap_2 fst _ (j, k2)).
  - exfalso. apply Hn. subst n. by apply (list_elem_of_fmap_2 fst _ (j, k1)).
  - by apply IH.
Qed.

Lemma erase_is_Some j l : j ∈ l.*1 → is_Some (StdList.erase j l).
Proof.
  induction l as [|n l IH]; simpl; [by intros ?%elem_of_nil|].
  intros Hin. destruct (decide (n.1 = j)) as [|Hne]; [by eexists|].
  apply elem_of_cons in Hin as [->|Hin]; [done|].
  destruct (IH Hin) as [l' ->]. by eexists.
Qed.

Lemma erase_sublist j l l' : StdList.erase j l = Some l' → l' `sublist_of` l.
Proof.
  revert l'. induction l as [|n l IH]; simpl; intros l' Hl'; [done|].
  destruct (decide (n.1 = j)).
  - simplify_eq. by apply sublist_cons.
  - destruct (StdList.erase j l) as [l''|]; simplify_eq/=.
    apply sublist_skip. by apply IH.
Qed.

Lemma erase_elem_of j l l' n :
  NoDup l.*1 → StdList.erase j l = Some l' → n ∈ l' ↔ n ∈ l ∧ n.1 ≠ j.
Proof.
  revert l'. induction l as [|m l IH]; simpl; intros l' Hnd Hl'; [done|].
  apply NoDup_cons in Hnd as [Hm Hnd].
  destruct (decide (m.1 = j)) as [Hj|Hj].
  - simplify_eq. rewrite elem_of_cons. split.
    + intros Hn. split; [by right|]. intros Heq. apply Hm.
      rewrite <- Heq. by apply list_elem_of_fmap_2.
    + intros [[->|Hn] Hne]; done.
  - destruct (StdList.erase j l) as [l''|] eqn:He; simplify_eq/=.
    rewrite !elem_of_cons, (IH l'') by done.
    split; [intros [->|[? ?]]; auto|intros [[->|?] ?]; auto].
Qed.

Lemma erase_keys j k l l' :
  NoDup l.*1 → NoDup l.*2 → (j, k) ∈ l → StdList.erase j l = Some l' →
  l'.*2 = filter (λ x, x ≠ k) l.*2.
Proof.
  revert l'. induction l as [|[i x] l IH]; simpl; intros l' Hn1 Hn2 Hin Hl';
    [done|].
  apply NoDup_cons in Hn1 as [Hm1 Hn1].
  apply NoDup_cons in Hn2 as [Hm2 Hn2].
  destruct (decide (i = j)) as [Hj|Hj].
  - simplify_eq. apply elem_of_cons in Hin as [Heq|Hin].
    + simplify_eq. rewrite filter_cons_False by naive_solver.
      symmetry. apply filter_all. intros y Hy ->. done.
    + exfalso. apply Hm1. by apply (list_elem_of_fmap_2 fst _ (j, k)).
  - destruct (StdList.erase j l) as [l''|] eqn:He; simplify_eq/=.
    apply elem_of_cons in Hin as [Heq|Hin]; [by simplify_eq|].
    rewrite filter_cons_True.
    + f_equal. by apply IH.
    + intros ->. apply Hm2. by apply (list_elem_of_fmap_2 snd _ (j, k)).
Qed.

Lemma erase_back l n :
  NoDup (l ++ [n]).*1 → StdList.erase n.1 (l ++ [n]) = Some l.
Proof.
  induction l as [|m l IH]; simpl; intros Hnd.
  - by rewrite decide_True.
  - apply NoDup_cons in Hnd as [Hm Hnd].
    rewrite decide_False.
    + by rewrite IH.
    + intros Heq. apply Hm. rewrite fmap_app, elem_of_app. right.
      rewrite Heq. apply list_elem_of_singleton. done.
Qed.
End stdlist.

(** ** class LRU *)

Section lru.
Context {K : Type} `{Countable K} {V : Type}.
Implicit Types (l : LRU.t K V) (key k : K) (j : iter) (v : V).

Lemma linked_dom l : LRU.linked l → dom (LRU.map_ l) = list_to_set (LRU.keys l).
Proof.
  intros Hl. apply set_eq. intros k.
  rewrite elem_of_dom, elem_of_list_to_set. unfold LRU.keys.
  rewrite list_elem_of_fmap. split.
  - intros [[v j] Hv]. exists (j, k). split; [done|].
    apply (LRU.linked_iter _ Hl). eauto.
  - intros [[j k'] [-> Hin]].
    apply (LRU.linked_iter _ Hl) in Hin as [v Hv]. eauto.
Qed.

Lemma linked_size l : LRU.linked l → LRU.size l = Z.of_nat (length (LRU.keys l)).
Proof.
  intros Hl. unfold LRU.size. f_equal.
  rewrite <- size_dom, (linked_dom _ Hl).
  apply size_list_to_set, Hl.
Qed.

Lemma linked_value l k : LRU.linked l → is_Some (LRU.value k l) ↔ k ∈ LRU.keys l.
Proof.
  intros Hl. unfold LRU.value. rewrite fmap_is_Some, <- elem_of_dom.
  rewrite (linked_dom _ Hl). apply elem_of_list_to_set.
Qed.

Lemma linked_lookup_None l k :
  LRU.linked l → LRU.map_ l !! k = None ↔ k ∉ LRU.keys l.
Proof.
  intros Hl. rewrite <- (linked_value _ _ Hl). unfold LRU.value.
  rewrite fmap_is_Some, eq_None_not_Some. done.
Qed.

Lemma contains_keys l k :
  LRU.linked l → LRU.contains k l = bool_decide (k ∈ LRU.keys l).
Proof.
  intros Hl. unfold LRU.contains. apply bool_decide_ext.
  rewrite <- (linked_value _ _ Hl). unfold LRU.value.
  by rewrite fmap_is_Some.
Qed.

(** *** evict(key) *)

Lemma evict_absent l key : key ∉ LRU.keys l → LRU.linked l → LRU.evict key l = Some l.
Proof.
  intros Hk Hl. unfold LRU.evict.
  by rewrite (proj2 (linked_lookup_None _ _ Hl) Hk).
Qed.

Lemma evict_present l key v j :
  LRU.linked l → LRU.map_ l !! key = Some (v, j) →
  ∃ lst, StdList.erase j (LRU.list_ l) = Some lst ∧
    LRU.evict key l =
      Some (LRU.mk (delete key (LRU.map_ l)) lst (LRU.capacity_ l)) ∧
    lst.*2 = filter (λ x, x ≠ key) (LRU.keys l) ∧
    LRU.linked (LRU.mk (delete key (LRU.map_ l)) lst (LRU.capacity_ l)).
Proof.
  intros Hl Hm.
  assert ((j, key) ∈ LRU.list_ l) as Hin by (apply Hl; eauto).
  destruct (erase_is_Some j (LRU.list_ l)) as [lst Hlst].
  { by apply (list_elem_of_fmap_2 fst _ (j, key)). }
  exists lst. split; [done|].
  pose proof (erase_keys _ _ _ _ (LRU.linked_nodes _ Hl)
    (LRU.linked_keys _ Hl) Hin Hlst) as Hkeys.
  split; [|split; [done|]].
  { unfold LRU.evict. rewrite Hm. simpl. by rewrite Hlst. }
  pose proof (erase_sublist _ _ _ Hlst) as Hsub.
  split; simpl.
  - apply (sublist_NoDup _ (LRU.list_ l).*1); [apply Hl|by apply fmap_sublist].
  - apply (sublist_NoDup _ (LRU.list_ l).*2); [apply Hl|by apply fmap_sublist].
  - intros j' k.
    rewrite (erase_elem_of _ _ _ _ (LRU.linked_nodes _ Hl) Hlst).
    rewrite (LRU.linked_iter _ Hl). simpl. split.
    + intros [[v' Hv'] Hne]. exists v'.
      rewrite lookup_delete_ne; [done|]. intros <-. congruence.
    + intros [v' Hv']. apply lookup_delete_Some in Hv' as [Hne Hv'].
      split; [eauto|]. intros ->.
      assert ((j, k) ∈ LRU.list_ l) as Hin' by (apply Hl; eauto).
      apply Hne. eapply node_key_unique; [apply Hl|done..].
Qed.

(** *** push_front and the map update that follows it *)

Lemma push_linked l key v :
  LRU.linked l → key ∉ LRU.keys l →
  LRU.linked
    (LRU.mk (<[key := (v, StdList.new_node (LRU.list_ l))]> (LRU.map_ l))
            (StdList.push_front key (LRU.list_ l)) (LRU.capacity_ l)).
Proof.
  intros Hl Hk. unfold StdList.push_front. split; simpl.
  - apply NoDup_cons. split; [apply new_node_fresh|apply Hl].
  - apply NoDup_cons. split; [done|apply Hl].
  - intros j k. rewrite elem_of_cons. setoid_rewrite lookup_insert_Some.
    rewrite (LRU.linked_iter _ Hl). split.
    + intros [Heq|[v' Hv']]; [simplify_eq; eauto|].
      exists v'. right. split; [|done]. intros <-.
      apply Hk. apply (linked_value _ _ Hl). unfold LRU.value.
      by rewrite Hv'.
    + intros [v' [[-> Heq]|[Hne Hv']]]; [simplify_eq; by left|eauto].
Qed.

Lemma keys_push (m : gmap K (V * iter)) l key c :
  LRU.keys (LRU.mk m (StdList.push_front key (LRU.list_ l)) c)
  = key :: LRU.keys l.
Proof. done. Qed.

(** *** The private evict() *)

Lemma evict_oldest_spec l :
  LRU.linked l → LRU.keys l ≠ [] →
  ∃ l1 old, LRU.evict_oldest l = Some l1 ∧ LRU.linked l1 ∧
    LRU.keys l = LRU.keys l1 ++ [old] ∧
    LRU.map_ l1 = delete old (LRU.map_ l) ∧
    LRU.capacity_ l1 = LRU.capacity_ l.
Proof.
  intros Hl Hne. unfold LRU.evict_oldest, StdList.back.
  destruct (last (LRU.list_ l)) as [[j old]|] eqn:Hlast.
  2:{ apply last_None in Hlast. unfold LRU.keys in Hne. by rewrite Hlast in Hne. }
  apply last_Some in Hlast as [l0 Hl0]. simpl.
  pose proof (LRU.linked_nodes _ Hl) as Hnd. rewrite Hl0 in Hnd.
  pose proof (erase_back l0 (j, old) Hnd) as He. simpl in He.
  rewrite Hl0, He. simpl.
  assert (∃ v, LRU.map_ l !! old = Some (v, j)) as [v Hv].
  { apply Hl. rewrite Hl0, elem_of_app, list_elem_of_singleton. by right. }
  destruct (evict_present _ _ _ _ Hl Hv) as (lst & Hlst & _ & _ & Hlinked).
  rewrite Hl0, He in Hlst. simplify_eq.
  eexists _, old. split; [done|]. split; [done|].
  split; [|done]. unfold LRU.keys. simpl. by rewrite Hl0, fmap_app.
Qed.

Lemma wf_of_keys l :
  LRU.linked l → (0 < LRU.capacity_ l)%Z →
  (Z.of_nat (length (LRU.keys l)) ≤ LRU.capacity_ l)%Z → LRU.wf l.
Proof. intros Hl ??. split; [done| |done]. by rewrite linked_size. Qed.

Lemma wf_length l :
  LRU.wf l → (Z.of_nat (length (LRU.keys l)) ≤ LRU.capacity_ l)%Z.
Proof. intros [Hl ? ?]. by rewrite <- linked_size. Qed.

(** *** insert *)

Lemma insert_present l key v :
  LRU.linked l → key ∈ LRU.keys l → LRU.insert key v l = Some l.
Proof.
  intros Hl Hk. apply (linked_value _ _ Hl) in Hk as [w Hw].
  unfold LRU.value in Hw. unfold LRU.insert.
  by destruct (LRU.map_ l !! key).
Qed.

Lemma insert_absent l key v :
  LRU.wf l → key ∉ LRU.keys l →
  ∃ l', LRU.insert key v l = Some l' ∧ LRU.wf l' ∧
    LRU.capacity_ l' = LRU.capacity_ l ∧
    LRU.keys l' = key :: take (Z.to_nat (LRU.capacity_ l) - 1) (LRU.keys l) ∧
    LRU.value key l' = Some v ∧
    (∀ k, k ∈ LRU.keys l' → k ≠ key → LRU.value k l' = LRU.value k l).
Proof.
  intros Hwf Hk. pose proof (wf_length _ Hwf) as Hlen.
  destruct Hwf as [Hl Hsize Hcap].
  assert (∃ l1, (if bool_decide (LRU.capacity_ l ≤ LRU.size l)%Z
                 then LRU.evict_oldest l else Some l) = Some l1 ∧
            LRU.linked l1 ∧ LRU.capacity_ l1 = LRU.capacity_ l ∧
            LRU.keys l1 = take (Z.to_nat (LRU.capacity_ l) - 1) (LRU.keys l) ∧
            (∀ k, k ∈ LRU.keys l1 → LRU.map_ l1 !! k = LRU.map_ l !! k))
    as (l1 & Hl1 & Hlinked & Hcap1 & Hkeys1 & Hmap1).
  { case_bool_decide as Hfull.
    - rewrite (linked_size _ Hl) in Hfull.
      destruct (evict_oldest_spec l Hl) as (l1 & old & He & ? & Hks & Hm & ?).
      { intros Hnil. rewrite Hnil in Hfull. simpl in Hfull. lia. }
      exists l1. split; [done|]. split; [done|]. split; [done|].
      rewrite Hks in Hlen, Hfull |- *. rewrite length_app in Hlen, Hfull.
      simpl in *. split.
      + symmetry. apply take_app_length'. lia.
      + intros k Hin. rewrite Hm. apply lookup_delete_ne. intros <-.
        pose proof (LRU.linked_keys _ Hl) as Hnd. fold (LRU.keys l) in Hnd.
        rewrite Hks in Hnd. apply NoDup_app in Hnd as (_ & Hnd & _).
        apply (Hnd old Hin). by apply list_elem_of_singleton.
    - exists l. rewrite (linked_size _ Hl) in Hfull.
      split; [done|]. split; [done|]. split; [done|]. split; [|done].
      symmetry. apply take_ge. lia. }
  assert (key ∉ LRU.keys l1) as Hk1.
  { rewrite Hkeys1. intros Hin%elem_of_take. destruct Hin as (i & Hi & _).
    apply Hk. by eapply list_elem_of_lookup_2. }
  pose proof (push_linked l1 key v Hlinked Hk1) as Hpush.
  unfold LRU.insert.
  rewrite (proj2 (linked_lookup_None _ _ Hl) Hk), Hl1. simpl.
  eexists. split; [done|].
  split; [|split; [done|split; [|split]]].
  - apply wf_of_keys; [done|simpl; lia|].
    rewrite keys_push. simpl. rewrite Hkeys1, length_take. lia.
  - by rewrite keys_push, Hkeys1.
  - unfold LRU.value. simpl. by rewrite lookup_insert_eq.
  - intros k Hin Hne. unfold LRU.value. simpl.
    rewrite lookup_insert_ne by done. rewrite Hmap1; [done|].
    unfold LRU.keys in Hin. simpl in Hin.
    apply elem_of_cons in Hin as [?|Hin]; done.
Qed.

(** *** get *)

Lemma get_miss l key :
  LRU.linked l → key ∉ LRU.keys l → LRU.get key l = Some (None, l).
Proof.
  intros Hl Hk. unfold LRU.get.
  by rewrite (proj2 (linked_lookup_None _ _ Hl) Hk).
Qed.

Lemma head_keys l key v j :
  LRU.linked l → LRU.map_ l !! key = Some (v, j) →
  StdList.begin (LRU.list_ l) = Some j →
  LRU.keys l = key :: filter (λ x, x ≠ key) (LRU.keys l).
Proof.
  intros Hl Hm Hb. unfold StdList.begin in Hb.
  assert ((j, key) ∈ LRU.list_ l) as Hin by (apply Hl; eauto).
  pose proof (LRU.linked_nodes _ Hl) as Hn1.
  pose proof (LRU.linked_keys _ Hl) as Hn2.
  unfold LRU.keys. destruct (LRU.list_ l) as [|[j0 k0] rest]; simplify_eq/=.
  assert (k0 = key) as ->.
  { eapply (node_key_unique ((j, k0) :: rest)); [done|by left|done]. }
  rewrite filter_cons_False by naive_solver. f_equal.
  apply NoDup_cons in Hn2 as [Hk0 _].
  symmetry. apply filter_all. by intros x Hx ->.
Qed.

Lemma get_hit l key :
  LRU.wf l → key ∈ LRU.keys l →
  ∃ v l', LRU.value key l = Some v ∧ LRU.get key l = Some (Some v, l') ∧
    LRU.wf l' ∧ LRU.capacity_ l' = LRU.capacity_ l ∧
    LRU.keys l' = key :: filter (λ x, x ≠ key) (LRU.keys l) ∧
    (∀ k, LRU.value k l' = LRU.value k l).
Proof.
  intros [Hl Hsize Hcap] Hk.
  destruct (proj2 (linked_value _ _ Hl) Hk) as [v Hv].
  unfold LRU.value in Hv.
  destruct (LRU.map_ l !! key) as [[v' j]|] eqn:Hm; simplify_eq/=.
  exists v. unfold LRU.get, LRU.value. rewrite Hm. simpl.
  case_bool_decide as Hb.
  - exists l. split; [done|]. split; [done|]. split; [done|].
    split; [done|]. split; [|done]. by eapply head_keys.
  - destruct (evict_present _ _ _ _ Hl Hm) as (lst & Hlst & _ & Hkeys & Hmid).
    rewrite Hlst. simpl. eexists. split; [done|]. split; [done|].
    assert (key ∉ LRU.keys (LRU.mk (delete key (LRU.map_ l)) lst (LRU.capacity_ l)))
      as Hfresh.
    { apply (linked_lookup_None _ _ Hmid). simpl. apply lookup_delete_eq. }
    pose proof (push_linked _ key v Hmid Hfresh) as Hpush. simpl in Hpush.
    rewrite insert_delete_eq in Hpush.
    split; [|split; [done|split]].
    + split; [done| |done]. unfold LRU.size in *. simpl.
      by rewrite map_size_insert_Some.
    + rewrite <- Hkeys. done.
    + intros k. simpl. destruct (decide (k = key)) as [->|Hne].
      * by rewrite lookup_insert_eq, Hm.
      * by rewrite lookup_insert_ne.
Qed.

(** *** evict(key) and clear, on a well-formed cache *)

Lemma evict_spec l key :
  LRU.wf l →
  ∃ l', LRU.evict key l = Some l' ∧ LRU.wf l' ∧
    LRU.capacity_ l' = LRU.capacity_ l ∧
    LRU.keys l' = filter (λ x, x ≠ key) (LRU.keys l) ∧
    (key ∉ LRU.keys l → l' = l) ∧
    (∀ k, k ≠ key → LRU.value k l' = LRU.value k l).
Proof.
  intros Hwf. pose proof (wf_length _ Hwf) as Hlen.
  destruct Hwf as [Hl Hsize Hcap].
  destruct (decide (key ∈ LRU.keys l)) as [Hk|Hk].
  - destruct (proj2 (linked_value _ _ Hl) Hk) as [v Hv].
    unfold LRU.value in Hv.
    destruct (LRU.map_ l !! key) as [[v' j]|] eqn:Hm; simplify_eq/=.
    destruct (evict_present _ _ _ _ Hl Hm) as (lst & Hlst & He & Hkeys & Hmid).
    eexists. split; [done|]. split; [|split; [done|split; [done|split; [done|]]]].
    + apply wf_of_keys; [done..|]. change (LRU.keys _) with (lst.*2).
      rewrite Hkeys. etrans; [|exact Hlen].
      apply Nat2Z.inj_le, length_filter.
    + intros k Hne. unfold LRU.value. simpl. by rewrite lookup_delete_ne.
  - exists l. split; [by apply evict_absent|]. split; [done|].
    split; [done|]. split; [|done].
    symmetry. apply filter_all. by intros x Hx ->.
Qed.

Lemma get_head l key rest :
  LRU.linked l → LRU.keys l = key :: rest →
  ∃ v, LRU.value key l = Some v ∧ LRU.get key l = Some (Some v, l).
Proof.
  intros Hl Hkeys. unfold LRU.keys in Hkeys.
  destruct (LRU.list_ l) as [|[j k0] tl] eqn:Hlist; simplify_eq/=.
  destruct (proj1 (LRU.linked_iter _ Hl j key)) as [v Hv].
  { rewrite Hlist. by left. }
  exists v. unfold LRU.value, LRU.get. rewrite Hv, Hlist. simpl.
  unfold StdList.begin. simpl. by rewrite bool_decide_eq_true_2.
Qed.

(** *** The recency scenario on one LRU of capacity 4 *)

Lemma not_elem_of_take {A} (x : A) (n : nat) (xs : list A) :
  x ∉ xs → x ∉ take n xs.
Proof.
  intros Hx Hin. apply Hx. apply elem_of_take in Hin as (i & Hi & _).
  by eapply list_elem_of_lookup_2.
Qed.

Local Ltac absent :=
  rewrite ?not_elem_of_cons; repeat split;
  first [congruence | apply not_elem_of_nil
        | repeat apply not_elem_of_take; assumption].

Lemma lru_scenario l ks A B C D E vA vB vC vD vE :
  LRU.wf l → LRU.capacity_ l = 4%Z → LRU.keys l = ks →
  A ∉ ks → B ∉ ks → C ∉ ks → D ∉ ks →
  NoDup [A; B; C; D; E] →
  ∃ l1 l2 l3 l4 v l5 l6,
    LRU.insert A vA l = Some l1 ∧ LRU.insert B vB l1 = Some l2 ∧
    LRU.insert C vC l2 = Some l3 ∧ LRU.insert D vD l3 = Some l4 ∧
    LRU.get A l4 = Some (Some v, l5) ∧ LRU.insert E vE l5 = Some l6 ∧
    LRU.keys l5 = [A; D; C; B] ∧
    LRU.wf l6 ∧ LRU.keys l6 = [E; A; D; C].
Proof.
  intros Hwf Hcap Hkeys HA HB HC HD Hnd.
  assert (A ≠ B ∧ A ≠ C ∧ A ≠ D ∧ A ≠ E ∧ B ≠ C ∧ B ≠ D ∧ B ≠ E ∧
          C ≠ D ∧ C ≠ E ∧ D ≠ E) as (?&?&?&?&?&?&?&?&?&?).
  { rewrite !NoDup_cons, !not_elem_of_cons in Hnd.
    destruct Hnd as ((?&?&?&?&_) & (?&?&?&_) & (?&?&_) & (?&_) & _).
    repeat split; assumption. }
  destruct (insert_absent l A vA Hwf) as (l1 & Hop1 & Hwf1 & Hcap1 & Hk1 & _).
  { by rewrite Hkeys. }
  rewrite Hcap in Hcap1. rewrite Hcap, Hkeys in Hk1.
  change (Z.to_nat 4 - 1)%nat with 3%nat in Hk1.
  destruct (insert_absent l1 B vB Hwf1) as (l2 & Hop2 & Hwf2 & Hcap2 & Hk2 & _).
  { rewrite Hk1. absent. }
  rewrite Hcap1 in Hcap2. rewrite Hcap1, Hk1 in Hk2.
  change (Z.to_nat 4 - 1)%nat with 3%nat in Hk2. simpl in Hk2.
  destruct (insert_absent l2 C vC Hwf2) as (l3 & Hop3 & Hwf3 & Hcap3 & Hk3 & _).
  { rewrite Hk2. absent. }
  rewrite Hcap2 in Hcap3. rewrite Hcap2, Hk2 in Hk3.
  change (Z.to_nat 4 - 1)%nat with 3%nat in Hk3. simpl in Hk3.
  destruct (insert_absent l3 D vD Hwf3) as (l4 & Hop4 & Hwf4 & Hcap4 & Hk4 & _).
  { rewrite Hk3. absent. }
  rewrite Hcap3 in Hcap4. rewrite Hcap3, Hk3 in Hk4.
  change (Z.to_nat 4 - 1)%nat with 3%nat in Hk4. simpl in Hk4.
  change (take 0 _) with (@nil K) in Hk4.
  destruct (get_hit l4 A Hwf4) as (v & l5 & _ & Hop5 & Hwf5 & Hcap5 & Hk5 & _).
  { rewrite Hk4, !elem_of_cons. auto. }
  rewrite Hcap4 in Hcap5. rewrite Hk4 in Hk5.
  rewrite (filter_cons_True _ D), (filter_cons_True _ C),
    (filter_cons_True _ B), (filter_cons_False _ A), filter_nil in Hk5
    by (first [congruence | by intros Hne; apply Hne]).
  destruct (insert_absent l5 E vE Hwf5) as (l6 & Hop6 & Hwf6 & Hcap6 & Hk6 & _).
  { rewrite Hk5. absent. }
  rewrite Hcap5, Hk5 in Hk6.
  change (Z.to_nat 4 - 1)%nat with 3%nat in Hk6. simpl in Hk6.
  by exists l1, l2, l3, l4, v, l5, l6.
Qed.

Lemma create_wf capacity : (0 < capacity)%Z → LRU.wf (LRU.create (K:=K) (V:=V) capacity).
Proof.
  intros Hc. split; [split|..]; simpl; try done.
  - constructor.
  - constructor.
  - intros j k. split; [by intros ?%elem_of_nil|].
    intros [v Hv]. by rewrite lookup_empty in Hv.
  - unfold LRU.size. simpl. rewrite map_size_empty. lia.
Qed.

Lemma clear_wf l : LRU.wf l → LRU.wf (LRU.clear l).
Proof. intros Hwf. apply (create_wf (LRU.capacity_ l)), Hwf. Qed.
End lru.

(** ** class Bucket *)

Section bucket.
Context {K : Type} `{Countable K} {V : Type}.
Implicit Types (b : Bucket.t K V) (key k : K) (v val : V).

Lemma bucket_eta b : Bucket.mk (Bucket.lru_ b) = b.
Proof. by destruct b. Qed.

Lemma bucket_contains b key :
  LRU.linked (Bucket.lru_ b) →
  Bucket.contains key b = bool_decide (key ∈ LRU.keys (Bucket.lru_ b)).
Proof. apply contains_keys. Qed.

Lemma bucket_insert_present b key val :
  LRU.linked (Bucket.lru_ b) → key ∈ LRU.keys (Bucket.lru_ b) →
  Bucket.insert key val b = Some b.
Proof.
  intros Hl Hk. unfold Bucket.insert.
  rewrite insert_present by done. simpl. by rewrite bucket_eta.
Qed.

Lemma bucket_get_miss b key :
  LRU.linked (Bucket.lru_ b) → key ∉ LRU.keys (Bucket.lru_ b) →
  Bucket.get key b = Some (OfStatus Error, b).
Proof.
  intros Hl Hk. unfold Bucket.get.
  rewrite get_miss by done. simpl. by rewrite bucket_eta.
Qed.

Lemma bucket_get_hit b key :
  LRU.wf (Bucket.lru_ b) → key ∈ LRU.keys (Bucket.lru_ b) →
  ∃ v l', LRU.value key (Bucket.lru_ b) = Some v ∧
    Bucket.get key b = Some (OfValue v, Bucket.mk l') ∧
    LRU.wf l' ∧ LRU.capacity_ l' = LRU.capacity_ (Bucket.lru_ b) ∧
    LRU.keys l' = key :: filter (λ x, x ≠ key) (LRU.keys (Bucket.lru_ b)) ∧
    (∀ k, LRU.value k l' = LRU.value k (Bucket.lru_ b)).
Proof.
  intros Hwf Hk.
  destruct (get_hit _ _ Hwf Hk) as (v & l' & Hv & Hg & Hrest).
  exists v, l'. split; [done|]. split; [|done].
  unfold Bucket.get. by rewrite Hg.
Qed.

Lemma bucket_putIfAbsent_hit b key val :
  LRU.wf (Bucket.lru_ b) → key ∈ LRU.keys (Bucket.lru_ b) →
  Bucket.putIfAbsent key val b = Bucket.get key b.
Proof.
  intros Hwf Hk.
  destruct (get_hit _ _ Hwf Hk) as (v & l' & _ & Hg & _).
  unfold Bucket.putIfAbsent, Bucket.get. by rewrite Hg.
Qed.

Lemma bucket_putIfAbsent_miss b key val :
  LRU.linked (Bucket.lru_ b) → key ∉ LRU.keys (Bucket.lru_ b) →
  Bucket.putIfAbsent key val b =
    l ← LRU.insert key val (Bucket.lru_ b); Some (OfStatus Inserted, Bucket.mk l).
Proof.
  intros Hl Hk. unfold Bucket.putIfAbsent. by rewrite get_miss.
Qed.

(** Every operation of a bucket is defined on a well-formed bucket and
    keeps it well-formed, with the capacity it had. *)

Lemma bucket_insert_kept b key val :
  LRU.wf (Bucket.lru_ b) →
  ∃ b', Bucket.insert key val b = Some b' ∧ Bucket.kept b b'.
Proof.
  intros Hwf. destruct (decide (key ∈ LRU.keys (Bucket.lru_ b))) as [Hk|Hk].
  - exists b. split; [|done]. apply bucket_insert_present; [apply Hwf|done].
  - destruct (insert_absent _ key val Hwf Hk) as (l' & Hi & ? & ? & _).
    exists (Bucket.mk l'). split; [|done].
    unfold Bucket.insert. by rewrite Hi.
Qed.

Lemma bucket_get_kept b key :
  LRU.wf (Bucket.lru_ b) →
  ∃ r, Bucket.get key b = Some r ∧ Bucket.kept b r.2.
Proof.
  intros Hwf. destruct (decide (key ∈ LRU.keys (Bucket.lru_ b))) as [Hk|Hk].
  - destruct (bucket_get_hit _ _ Hwf Hk) as (v & l' & _ & Hg & ? & ? & _).
    eexists. split; [done|]. done.
  - eexists. split; [apply bucket_get_miss; [apply Hwf|done]|]. done.
Qed.

Lemma bucket_putIfAbsent_kept b key val :
  LRU.wf (Bucket.lru_ b) →
  ∃ r, Bucket.putIfAbsent key val b = Some r ∧ Bucket.kept b r.2.
Proof.
  intros Hwf. destruct (decide (key ∈ LRU.keys (Bucket.lru_ b))) as [Hk|Hk].
  - rewrite bucket_putIfAbsent_hit by done. by apply bucket_get_kept.
  - rewrite bucket_putIfAbsent_miss by (done || apply Hwf).
    destruct (insert_absent _ key val Hwf Hk) as (l' & Hi & ? & ? & _).
    rewrite Hi. simpl. eexists. split; [done|]. done.
Qed.

Lemma bucket_evict_kept b key :
  LRU.wf (Bucket.lru_ b) →
  ∃ b', Bucket.evict key b = Some b' ∧ Bucket.kept b b'.
Proof.
  intros Hwf. destruct (evict_spec _ key Hwf) as (l' & He & ? & ? & _).
  exists (Bucket.mk l'). split; [|done]. unfold Bucket.evict. by rewrite He.
Qed.

Lemma bucket_clear_kept b :
  LRU.wf (Bucket.lru_ b) → Bucket.kept b (Bucket.clear b).
Proof. intros Hwf. split; [by apply clear_wf|done]. Qed.
End bucket.

(** ** class ConcurrentLRUCache *)

Section cache.
Context {K : Type} `{Countable K} {V : Type}.
Variable hash : K → Z.
Local Open Scope Z_scope.

Import ConcurrentLRUCache.
Implicit Types (c : ConcurrentLRUCache.t K V) (b : Bucket.t K V).
Implicit Types (key k : K) (hint i : Z).

(** *** Routing *)

Lemma bucketIndex_value c key hint :
  wf c →
  bucketIndex hash key hint c =
    (if bool_decide (0 ≤ hint) then hint else hash key) mod 2 ^ bucketsExp_ c.
Proof.
  intros [He Hn _ _]. pose proof (pow2_bounds _ He) as Hp.
  unfold bucketIndex, mask. rewrite mask_value by done.
  assert (to_uint64 (2 ^ bucketsExp_ c - 1) = 2 ^ bucketsExp_ c - 1) as ->.
  { unfold to_uint64. apply Z.mod_small. lia. }
  rewrite !land_mask by lia. unfold to_uint32, to_uint64.
  assert (2 ^ 32 < 2 ^ 64) by done.
  case_bool_decide.
  - pose proof (Z.mod_pos_bound hint (2 ^ bucketsExp_ c) (proj1 Hp)).
    rewrite (Z.mod_small _ (2 ^ 64)) by lia. apply Z.mod_small. lia.
  - pose proof (Z.mod_pos_bound (hash key) (2 ^ bucketsExp_ c) (proj1 Hp)).
    apply Z.mod_small. lia.
Qed.

Lemma bucketIndex_range c key hint :
  wf c → 0 ≤ bucketIndex hash key hint c < bucketsNum_ c.
Proof.
  intros Hwf. rewrite bucketIndex_value by done.
  destruct Hwf as [He Hn _ _]. rewrite Hn.
  apply Z.mod_pos_bound. by apply pow2_bounds.
Qed.

Lemma bucket_at_range c i :
  wf c → 0 ≤ i < bucketsNum_ c →
  ∃ b, bucket_at i c = Some b ∧ LRU.wf (Bucket.lru_ b).
Proof.
  intros Hwf Hi. unfold bucket_at.
  destruct (lookup_lt_is_Some_2 (buckets_ c) (Z.to_nat i)) as [b Hb].
  { pose proof (wf_len _ Hwf). lia. }
  exists b. split; [done|].
  by apply (Forall_lookup_1 _ _ _ _ (wf_buckets _ Hwf) Hb).
Qed.

Lemma bucket_at_index c key hint :
  wf c →
  ∃ b, bucket_at (bucketIndex hash key hint c) c = Some b ∧
    LRU.wf (Bucket.lru_ b).
Proof. intros Hwf. by apply bucket_at_range, bucketIndex_range. Qed.

(** *** Replacing one bucket *)

Lemma set_bucket_same c i b : bucket_at i c = Some b → set_bucket i b c = c.
Proof.
  unfold bucket_at, set_bucket. intros Hb.
  rewrite list_insert_id by done. by destruct c.
Qed.

Lemma bucket_at_set c i b b' :
  bucket_at i c = Some b → bucket_at i (set_bucket i b' c) = Some b'.
Proof.
  unfold bucket_at, set_bucket. simpl. intros Hb.
  apply list_lookup_insert_eq. by eapply lookup_lt_Some.
Qed.

Lemma bucket_at_set_ne c i i' b' :
  0 ≤ i → 0 ≤ i' → i ≠ i' →
  bucket_at i' (set_bucket i b' c) = bucket_at i' c.
Proof.
  unfold bucket_at, set_bucket. simpl. intros ???.
  apply list_lookup_insert_ne. lia.
Qed.

Lemma set_bucket_wf c i b b' :
  wf c → bucket_at i c = Some b → Bucket.kept b b' →
  wf (set_bucket i b' c) ∧
  capacities (set_bucket i b' c) = capacities c.
Proof.
  intros [He Hn Hl Hb] Hi [Hwf' Hcap]. unfold bucket_at in Hi. split.
  - split; simpl; [done..| |].
    + by rewrite length_insert.
    + by apply Forall_insert.
  - unfold capacities, set_bucket. simpl.
    rewrite list_fmap_insert. apply list_insert_id.
    rewrite list_lookup_fmap, Hi. simpl. unfold LRU.capacity. by rewrite Hcap.
Qed.

(** *** The constructor *)

Lemma fill_value (n : nat) q (bs : list (Bucket.t K V)) left :
  0 ≤ q → Z.of_nat n * q ≤ left < 2 ^ 64 →
  fill n q bs left = (bs ++ replicate n (Bucket.create q), left - Z.of_nat n * q).
Proof.
  intros Hq. revert bs left. induction n as [|n IH]; intros bs left Hleft.
  - simpl. rewrite app_nil_r. f_equal. lia.
  - simpl. unfold to_uint64. rewrite Z.mod_small by lia.
    rewrite IH by lia. rewrite <- app_assoc. simpl. f_equal. lia.
Qed.

Lemma per_bucket_bounds capacity e :
  args_ok capacity e → 2 ^ e < capacity →
  0 < capacity / 2 ^ e ∧
  capacity - (2 ^ e - 1) * (capacity / 2 ^ e)
    = capacity / 2 ^ e + capacity mod 2 ^ e ∧
  0 ≤ capacity mod 2 ^ e.
Proof.
  intros [Hc He] Hlt. pose proof (pow2_bounds _ He) as Hp.
  pose proof (Z.div_mod capacity (2 ^ e)).
  pose proof (Z.mod_pos_bound capacity (2 ^ e)).
  split; [apply Z.div_str_pos; lia|]. split; lia.
Qed.

Lemma construct_value capacity e :
  args_ok capacity e → 2 ^ e < capacity →
  construct (K:=K) (V:=V) capacity e =
    Some (mk (replicate (Z.to_nat (2 ^ e - 1)) (Bucket.create (capacity / 2 ^ e))
              ++ [Bucket.create (capacity / 2 ^ e + capacity mod 2 ^ e)])
            (2 ^ e) e).
Proof.
  intros Hargs Hlt. pose proof Hargs as [Hc He].
  pose proof (pow2_bounds _ He) as Hp.
  destruct (per_bucket_bounds _ _ Hargs Hlt) as (Hq & Hleft & Hr).
  unfold construct. rewrite to_uint32_shl1 by done.
  rewrite bool_decide_eq_true_2 by lia.
  rewrite Z.shiftr_div_pow2 by lia.
  assert (to_uint32 (2 ^ e - 1) = 2 ^ e - 1) as ->.
  { unfold to_uint32. apply Z.mod_small. lia. }
  rewrite fill_value; [|lia|nia]. simpl.
  rewrite Z2Nat.id by lia. rewrite Hleft.
  by rewrite bool_decide_eq_true_2 by lia.
Qed.

Lemma construct_refused capacity e :
  args_ok capacity e → capacity ≤ 2 ^ e →
  construct (K:=K) (V:=V) capacity e = None.
Proof.
  intros [Hc He] Hle. unfold construct. rewrite to_uint32_shl1 by done.
  by rewrite bool_decide_eq_false_2 by lia.
Qed.

Lemma construct_wf capacity e c :
  args_ok capacity e → construct capacity e = Some c → wf c.
Proof.
  intros Hargs Hc. pose proof Hargs as [Hcap He].
  pose proof (pow2_bounds _ He) as Hp.
  destruct (decide (2 ^ e < capacity)) as [Hlt|Hge].
  2:{ rewrite construct_refused in Hc by (done || lia). done. }
  destruct (per_bucket_bounds _ _ Hargs Hlt) as (Hq & Hleft & Hr).
  rewrite construct_value in Hc by done. simplify_eq.
  split; simpl; [done..| |].
  - rewrite length_app, length_replicate. simpl. lia.
  - apply Forall_app. split.
    + apply Forall_replicate. simpl. by apply create_wf.
    + apply Forall_singleton. simpl. apply create_wf. lia.
Qed.

(** *** Every call is defined and keeps the invariant *)

Lemma insert_kept c key val hint :
  wf c → ∃ c', insert hash key val hint c = Some c' ∧ kept c c'.
Proof.
  intros Hwf. destruct (bucket_at_index c key hint Hwf) as (b & Hb & Hbwf).
  destruct (bucket_insert_kept b key val Hbwf) as (b' & Hi & Hk).
  unfold insert. rewrite Hb. simpl. rewrite Hi. simpl.
  eexists. split; [done|]. by eapply set_bucket_wf.
Qed.

Lemma get_kept c key hint :
  wf c → ∃ r, get hash key hint c = Some r ∧ kept c r.2.
Proof.
  intros Hwf. destruct (bucket_at_index c key hint Hwf) as (b & Hb & Hbwf).
  destruct (bucket_get_kept b key Hbwf) as (r & Hg & Hk).
  unfold get. rewrite Hb. simpl. rewrite Hg. simpl.
  eexists. split; [done|]. by eapply set_bucket_wf.
Qed.

Lemma putIfAbsent_kept c key val hint :
  wf c → ∃ r, putIfAbsent hash key val hint c = Some r ∧ kept c r.2.
Proof.
  intros Hwf. destruct (bucket_at_index c key hint Hwf) as (b & Hb & Hbwf).
  destruct (bucket_putIfAbsent_kept b key val Hbwf) as (r & Hg & Hk).
  unfold putIfAbsent. rewrite Hb. simpl. rewrite Hg. simpl.
  eexists. split; [done|]. by eapply set_bucket_wf.
Qed.

Lemma evict_kept c key hint :
  wf c → ∃ c', evict hash key hint c = Some c' ∧ kept c c'.
Proof.
  intros Hwf. destruct (bucket_at_index c key hint Hwf) as (b & Hb & Hbwf).
  destruct (bucket_evict_kept b key Hbwf) as (b' & Hi & Hk).
  unfold evict. rewrite Hb. simpl. rewrite Hi. simpl.
  eexists. split; [done|]. by eapply set_bucket_wf.
Qed.

Lemma contains_defined c key hint :
  wf c → is_Some (contains hash key hint c).
Proof.
  intros Hwf. destruct (bucket_at_index c key hint Hwf) as (b & Hb & Hbwf).
  unfold contains. rewrite Hb. by eexists.
Qed.

Lemma clear_from_kept (n : nat) i c :
  wf c → 0 ≤ i → i + Z.of_nat n ≤ bucketsNum_ c →
  ∃ c', clear_from n i c = Some c' ∧ kept c c'.
Proof.
  revert i c. induction n as [|n IH]; intros i c Hwf Hi Hn.
  - exists c. by split.
  - destruct (bucket_at_range c i Hwf) as (b & Hb & Hbwf); [lia|].
    simpl. rewrite Hb. simpl.
    destruct (set_bucket_wf c i b (Bucket.clear b) Hwf Hb) as [Hwf' Hcaps].
    { by apply bucket_clear_kept. }
    destruct (IH (i + 1) _ Hwf') as (c' & Hc' & Hwf'' & Hcaps'); [lia|simpl; lia|].
    exists c'. split; [done|]. split; [done|]. by rewrite Hcaps'.
Qed.

Lemma clear_kept c : wf c → ∃ c', clear c = Some c' ∧ kept c c'.
Proof.
  intros Hwf. apply clear_from_kept; [done|done|].
  pose proof (wf_len _ Hwf). lia.
Qed.

Lemma step_kept o c : wf c → ∃ c', step hash o c = Some c' ∧ kept c c'.
Proof.
  intros Hwf. destruct o as [key val hint|key hint|key val hint|key hint|key hint|];
    simpl.
  - by apply insert_kept.
  - destruct (get_kept c key hint Hwf) as (r & -> & Hk). by exists r.2.
  - destruct (putIfAbsent_kept c key val hint Hwf) as (r & -> & Hk). by exists r.2.
  - by apply evict_kept.
  - destruct (contains_defined c key hint Hwf) as [r ->]. by exists c.
  - by apply clear_kept.
Qed.

Lemma run_kept ops c : wf c → ∃ c', run hash ops c = Some c' ∧ kept c c'.
Proof.
  revert c. induction ops as [|o ops IH]; intros c Hwf; simpl.
  - by exists c.
  - destruct (step_kept o c Hwf) as (c1 & -> & Hwf1 & Hcaps1). simpl.
    destruct (IH c1 Hwf1) as (c' & Hr & Hwf' & Hcaps').
    exists c'. split; [done|]. split; [done|]. by rewrite Hcaps'.
Qed.

Lemma reachable_wf c : reachable hash c → wf c.
Proof.
  induction 1 as [capacity e c Hargs Hc|o c c' _ IH Hstep].
  - by eapply construct_wf.
  - destruct (step_kept o c IH) as (c'' & Hs & Hwf & _). congruence.
Qed.

Lemma sizes_bounded c :
  wf c → Forall2 Z.le (sizes c) (capacities c) ∧ total (sizes c) ≤ total (capacities c).
Proof.
  intros [_ _ _ Hb]. unfold sizes, capacities, total.
  induction Hb as [|b bs Hbwf _ [IH1 IH2]]; simpl; [by split|].
  pose proof (LRU.wf_size _ Hbwf). unfold LRU.capacity in *. split.
  - by constructor.
  - by apply Z.add_le_mono.
Qed.

(** *** What a call does to the bucket it is routed to *)

Lemma bucketIndex_hint c key key' hint :
  0 ≤ hint → bucketIndex hash key hint c = bucketIndex hash key' hint c.
Proof. intros Hh. unfold bucketIndex. by rewrite bool_decide_eq_true_2. Qed.

Lemma contains_at c key hint b :
  bucket_at (bucketIndex hash key hint c) c = Some b →
  LRU.linked (Bucket.lru_ b) →
  contains hash key hint c = Some (bool_decide (key ∈ LRU.keys (Bucket.lru_ b))).
Proof.
  intros Hb Hl. unfold contains. rewrite Hb. simpl.
  by rewrite bucket_contains.
Qed.

Lemma contains_true c key hint b :
  bucket_at (bucketIndex hash key hint c) c = Some b →
  LRU.linked (Bucket.lru_ b) →
  contains hash key hint c = Some true → key ∈ LRU.keys (Bucket.lru_ b).
Proof.
  intros Hb Hl. rewrite (contains_at _ _ _ _ Hb Hl). intros [= Hd].
  by apply bool_decide_eq_true_1 in Hd.
Qed.

Lemma contains_false c key hint b :
  bucket_at (bucketIndex hash key hint c) c = Some b →
  LRU.linked (Bucket.lru_ b) →
  contains hash key hint c = Some false → key ∉ LRU.keys (Bucket.lru_ b).
Proof.
  intros Hb Hl. rewrite (contains_at _ _ _ _ Hb Hl). intros [= Hd].
  by apply bool_decide_eq_false_1 in Hd.
Qed.

Lemma get_miss_cache c key hint :
  wf c → contains hash key hint c = Some false →
  get hash key hint c = Some (OfStatus Error, c).
Proof.
  intros Hwf Hc. destruct (bucket_at_index c key hint Hwf) as (b & Hb & Hbwf).
  pose proof (contains_false _ _ _ _ Hb (LRU.wf_linked _ Hbwf) Hc) as Hk.
  unfold get. rewrite Hb. simpl.
  rewrite bucket_get_miss by (done || apply Hbwf). simpl.
  by rewrite set_bucket_same.
Qed.

Lemma get_hit_cache c key hint :
  wf c → contains hash key hint c = Some true →
  ∃ v c' ks,
    stored key (bucketIndex hash key hint c) c = Some v ∧
    recency (bucketIndex hash key hint c) c = Some ks ∧
    get hash key hint c = Some (OfValue v, c') ∧
    recency (bucketIndex hash key hint c) c'
      = Some (key :: filter (λ x, x ≠ key) ks) ∧
    (∀ k, stored k (bucketIndex hash key hint c) c'
          = stored k (bucketIndex hash key hint c) c) ∧
    (∀ i, 0 ≤ i → i ≠ bucketIndex hash key hint c →
          bucket_at i c' = bucket_at i c).
Proof.
  intros Hwf Hc. destruct (bucket_at_index c key hint Hwf) as (b & Hb & Hbwf).
  pose proof (contains_true _ _ _ _ Hb (LRU.wf_linked _ Hbwf) Hc) as Hk.
  destruct (bucket_get_hit b key Hbwf Hk)
    as (v & l' & Hv & Hg & Hwf' & Hcap & Hkeys & Hvals).
  exists v, (set_bucket (bucketIndex hash key hint c) (Bucket.mk l') c),
    (LRU.keys (Bucket.lru_ b)).
  unfold stored, recency, get. rewrite Hb. simpl.
  rewrite Hg. simpl. rewrite (bucket_at_set _ _ _ _ Hb). simpl.
  split; [done|]. split; [done|]. split; [done|].
  split; [by rewrite Hkeys|]. split; [done|].
  intros i Hi Hne. apply bucket_at_set_ne; [|done..].
  by apply bucketIndex_range.
Qed.

Lemma total_capacities capacity e c :
  args_ok capacity e → construct capacity e = Some c →
  capacities c
    = replicate (Z.to_nat (2 ^ e - 1)) (capacity / 2 ^ e)
      ++ [capacity / 2 ^ e + capacity mod 2 ^ e] ∧
  total (capacities c) = capacity.
Proof.
  intros Hargs Hc. pose proof Hargs as [Hcap He].
  pose proof (pow2_bounds _ He) as Hp.
  destruct (decide (2 ^ e < capacity)) as [Hlt|Hge].
  2:{ rewrite construct_refused in Hc by (done || lia). done. }
  rewrite construct_value in Hc by done. simplify_eq.
  unfold capacities. simpl. rewrite fmap_app, fmap_replicate. simpl.
  split; [done|]. unfold LRU.capacity. simpl.
  pose proof (Z.div_mod capacity (2 ^ e)).
  assert (∀ (n : nat) q x, total (replicate n q ++ [x]) = Z.of_nat n * q + x)
    as Hsum.
  { intros n q x. induction n as [|n IH]; simpl; [lia|].
    unfold total in *. simpl. rewrite IH. lia. }
  rewrite Hsum. rewrite Z2Nat.id by lia. lia.
Qed.

Lemma run_step o ops c c' :
  step hash o c = Some c' → run hash (o :: ops) c = run hash ops c'.
Proof. intros Hs. simpl. by rewrite Hs. Qed.

Lemma insert_at c key val hint b l' :
  bucket_at (bucketIndex hash key hint c) c = Some b →
  LRU.insert key val (Bucket.lru_ b) = Some l' →
  insert hash key val hint c
    = Some (set_bucket (bucketIndex hash key hint c) (Bucket.mk l') c).
Proof.
  intros Hb Hi. unfold insert, Bucket.insert. rewrite Hb. simpl.
  by rewrite Hi.
Qed.

Lemma get_at c key hint b v l' :
  bucket_at (bucketIndex hash key hint c) c = Some b →
  LRU.get key (Bucket.lru_ b) = Some (Some v, l') →
  get hash key hint c
    = Some (OfValue v, set_bucket (bucketIndex hash key hint c) (Bucket.mk l') c).
Proof.
  intros Hb Hg. unfold get, Bucket.get. rewrite Hb. simpl.
  by rewrite Hg.
Qed.

Lemma evict_at c key hint b l' :
  bucket_at (bucketIndex hash key hint c) c = Some b →
  LRU.evict key (Bucket.lru_ b) = Some l' →
  evict hash key hint c
    = Some (set_bucket (bucketIndex hash key hint c) (Bucket.mk l') c).
Proof.
  intros Hb He. unfold evict, Bucket.evict. rewrite Hb. simpl.
  by rewrite He.
Qed.

(** A call routed to bucket [i] works on that bucket alone and leaves the
    routing as it was. *)
Lemma routed_insert c i hint key val l l' :
  bucketIndex hash key hint c = i →
  bucket_at i c = Some (Bucket.mk l) → LRU.insert key val l = Some l' →
  ∃ c', step hash (Insert key val hint) c = Some c' ∧
    (∀ k h, bucketIndex hash k h c' = bucketIndex hash k h c) ∧
    bucket_at i c' = Some (Bucket.mk l').
Proof.
  intros Hi Hb Hop. simpl. rewrite <- Hi in Hb.
  rewrite (insert_at c key val hint _ l' Hb Hop).
  eexists. split; [done|]. split; [done|].
  rewrite <- Hi. by eapply bucket_at_set.
Qed.

Lemma routed_get c i hint key v l l' :
  bucketIndex hash key hint c = i →
  bucket_at i c = Some (Bucket.mk l) → LRU.get key l = Some (Some v, l') →
  ∃ c', step hash (Get key hint) c = Some c' ∧
    (∀ k h, bucketIndex hash k h c' = bucketIndex hash k h c) ∧
    bucket_at i c' = Some (Bucket.mk l').
Proof.
  intros Hi Hb Hop. simpl. rewrite <- Hi in Hb.
  rewrite (get_at c key hint _ v l' Hb Hop). simpl.
  eexists. split; [done|]. split; [done|].
  rewrite <- Hi. by eapply bucket_at_set.
Qed.
End cache.

(** * The claims of the specification *)

Section claims.
Context {K : Type} `{Countable K} {V : Type}.
Variable hash : K → Z.
Local Open Scope Z_scope.

Import ConcurrentLRUCache.
Implicit Types (c : ConcurrentLRUCache.t K V) (key k : K) (hint : Z).

(** C1: in a shard of capacity 4 that holds none of A, B, C, D (an empty
    shard, say), with every call routed to that shard by the same hint (a
    non-negative hint does that, and so does a negative one when the hashes
    of the keys select the same bucket), inserting the distinct keys A, B,
    C, D in this order and reading A leaves the recency order A, D, C, B;
    inserting E then evicts B and nothing else: the recency order ends as
    E, A, D, C, so A, C, D and E are contained and B is not. *)
Theorem recency_scenario c h ks A B C D E vA vB vC vD vE :
  reachable hash c →
  0 ≤ h ∨ Forall (λ k, bucketIndex hash k h c = bucketIndex hash A h c)
            [B; C; D; E] →
  capacities c !! Z.to_nat (bucketIndex hash A h c) = Some 4 →
  recency (bucketIndex hash A h c) c = Some ks →
  A ∉ ks → B ∉ ks → C ∉ ks → D ∉ ks →
  NoDup [A; B; C; D; E] →
  ∃ c5 c6,
    run hash [Insert A vA h; Insert B vB h; Insert C vC h;
              Insert D vD h; Get A h] c = Some c5 ∧
    recency (bucketIndex hash A h c) c5 = Some [A; D; C; B] ∧
    insert hash E vE h c5 = Some c6 ∧
    run hash [Insert A vA h; Insert B vB h; Insert C vC h;
              Insert D vD h; Get A h; Insert E vE h] c = Some c6 ∧
    recency (bucketIndex hash A h c) c6 = Some [E; A; D; C] ∧
    contains hash A h c6 = Some true ∧
    contains hash C h c6 = Some true ∧
    contains hash D h c6 = Some true ∧
    contains hash E h c6 = Some true ∧
    contains hash B h c6 = Some false.
Proof.
  intros Hwf%reachable_wf Hroute Hcap Hks HA HB HC HD Hnd.
  destruct (bucket_at_index hash c A h Hwf) as ([l] & Hb & Hbwf).
  set (i := bucketIndex hash A h c) in *.
  assert (Forall (λ k, bucketIndex hash k h c = i) [A; B; C; D; E]) as Hi.
  { destruct Hroute as [Hh|Hsame].
    - repeat constructor; by apply bucketIndex_hint.
    - by constructor. }
  apply Forall_cons in Hi as [HiA Hi]. apply Forall_cons in Hi as [HiB Hi].
  apply Forall_cons in Hi as [HiC Hi]. apply Forall_cons in Hi as [HiD Hi].
  apply Forall_cons in Hi as [HiE _].
  unfold recency in Hks. rewrite Hb in Hks. simpl in Hks.
  unfold capacities in Hcap. unfold bucket_at in Hb.
  rewrite list_lookup_fmap, Hb in Hcap. simpl in Hcap, Hbwf.
  fold (bucket_at i c) in Hb. injection Hks as <-. injection Hcap as Hcap.
  destruct (lru_scenario l (LRU.keys l) A B C D E vA vB vC vD vE Hbwf)
    as (l1 & l2 & l3 & l4 & v & l5 & l6
        & H1 & H2 & H3 & H4 & H5 & H6 & Hk5 & Hwf6 & Hk6);
    [done..|].
  destruct (routed_insert hash c i h A vA _ _ HiA Hb H1) as (c1 & Hs1 & Hr1 & Hb1).
  assert (bucketIndex hash B h c1 = i) as HiB1 by (by rewrite Hr1).
  destruct (routed_insert hash c1 i h B vB _ _ HiB1 Hb1 H2) as (c2 & Hs2 & Hr2 & Hb2).
  assert (bucketIndex hash C h c2 = i) as HiC2 by (by rewrite Hr2, Hr1).
  destruct (routed_insert hash c2 i h C vC _ _ HiC2 Hb2 H3) as (c3 & Hs3 & Hr3 & Hb3).
  assert (bucketIndex hash D h c3 = i) as HiD3 by (by rewrite Hr3, Hr2, Hr1).
  destruct (routed_insert hash c3 i h D vD _ _ HiD3 Hb3 H4) as (c4 & Hs4 & Hr4 & Hb4).
  assert (bucketIndex hash A h c4 = i) as HiA4 by (by rewrite Hr4, Hr3, Hr2, Hr1).
  destruct (routed_get hash c4 i h A v _ _ HiA4 Hb4 H5) as (c5 & Hs5 & Hr5 & Hb5).
  assert (bucketIndex hash E h c5 = i) as HiE5
    by (by rewrite Hr5, Hr4, Hr3, Hr2, Hr1).
  destruct (routed_insert hash c5 i h E vE _ _ HiE5 Hb5 H6) as (c6 & Hs6 & Hr6 & Hb6).
  assert (∀ k, bucketIndex hash k h c6 = bucketIndex hash k h c) as Hr.
  { intros k. by rewrite Hr6, Hr5, Hr4, Hr3, Hr2, Hr1. }
  exists c5, c6.
  rewrite !(run_step _ _ _ _ _ Hs1), !(run_step _ _ _ _ _ Hs2),
    !(run_step _ _ _ _ _ Hs3), !(run_step _ _ _ _ _ Hs4),
    !(run_step _ _ _ _ _ Hs5), (run_step _ _ _ _ _ Hs6).
  split; [done|].
  unfold recency. rewrite Hb5, Hb6. simpl. rewrite Hk5, Hk6.
  split; [done|]. split; [exact Hs6|]. split; [done|]. split; [done|].
  assert (∀ k, bucketIndex hash k h c = i →
    contains hash k h c6 = Some (bool_decide (k ∈ [E; A; D; C]))) as Hc.
  { intros k Hk. rewrite <- Hk6.
    apply (contains_at hash c6 k h (Bucket.mk l6)); [by rewrite Hr, Hk|apply Hwf6]. }
  rewrite !Hc by done.
  assert (A ≠ B ∧ B ≠ C ∧ B ≠ D ∧ B ≠ E) as (?&?&?&?).
  { rewrite !NoDup_cons, !not_elem_of_cons in Hnd.
    destruct Hnd as ((?&_) & (?&?&?&_) & _). done. }
  rewrite !bool_decide_eq_true_2 by (rewrite !elem_of_cons; auto).
  rewrite bool_decide_eq_false_2; [done|].
  rewrite !not_elem_of_cons. repeat split; [congruence..|apply not_elem_of_nil].
Qed.

(** C2: with [capacity > numShards = 2^bucketsExp] the constructor
    succeeds, gives each of the first [numShards - 1] shards the capacity
    [capacity / numShards], gives the last shard that quotient plus the
    whole remainder of the division, and the shard capacities add up to
    [capacity]. *)
Theorem shard_capacities capacity bucketsExp :
  args_ok capacity bucketsExp → 2 ^ bucketsExp < capacity →
  ∃ c, construct (K:=K) (V:=V) capacity bucketsExp = Some c ∧
    bucketsNum_ c = 2 ^ bucketsExp ∧
    Z.of_nat (length (buckets_ c)) = 2 ^ bucketsExp ∧
    capacities c
      = replicate (Z.to_nat (2 ^ bucketsExp - 1)) (capacity / 2 ^ bucketsExp)
        ++ [capacity / 2 ^ bucketsExp + capacity mod 2 ^ bucketsExp] ∧
    total (capacities c) = capacity.
Proof.
  intros Hargs Hlt.
  destruct (construct (K:=K) (V:=V) capacity bucketsExp) as [c|] eqn:Hc.
  2:{ by rewrite construct_value in Hc. }
  exists c. split; [done|].
  pose proof (construct_wf _ _ _ Hargs Hc) as Hwf.
  assert (bucketsNum_ c = 2 ^ bucketsExp) as Hn.
  { rewrite construct_value in Hc by done. by simplify_eq. }
  split; [done|]. split; [by rewrite (wf_len _ Hwf)|].
  by apply total_capacities.
Qed.

(** C3: the constructor refuses to build a cache exactly when
    [capacity ≤ numShards] or [numShards = 0], with
    [numShards = 2^bucketsExp]; whenever [capacity > numShards] and
    [numShards > 0] it builds one. *)
Theorem construct_fails_iff capacity bucketsExp :
  args_ok capacity bucketsExp →
  (construct (K:=K) (V:=V) capacity bucketsExp = None
     ↔ capacity ≤ 2 ^ bucketsExp ∨ 2 ^ bucketsExp = 0) ∧
  (2 ^ bucketsExp < capacity ∧ 0 < 2 ^ bucketsExp →
     is_Some (construct (K:=K) (V:=V) capacity bucketsExp)).
Proof.
  intros Hargs. pose proof Hargs as [_ He].
  pose proof (pow2_bounds _ He) as Hp. split.
  - split.
    + intros Hnone. destruct (decide (capacity ≤ 2 ^ bucketsExp)); [by left|].
      rewrite construct_value in Hnone by (done || lia). done.
    + intros [Hle|Hz]; [by apply construct_refused|lia].
  - intros [Hlt _]. rewrite construct_value by done. by eexists.
Qed.

(** C4: for every key and hint the bucket index is
    [hint & (numShards - 1)] when [hint ≥ 0] and
    [hash(key) & (numShards - 1)] when [hint < 0]; either way it is the
    index of a bucket of the cache. *)
Theorem bucketIndex_spec c key hint :
  reachable hash c →
  bucketsNum_ c = 2 ^ bucketsExp_ c ∧
  (0 ≤ hint →
     bucketIndex hash key hint c = Z.land hint (bucketsNum_ c - 1)) ∧
  (hint < 0 →
     bucketIndex hash key hint c = Z.land (hash key) (bucketsNum_ c - 1)) ∧
  0 ≤ bucketIndex hash key hint c < bucketsNum_ c ∧
  is_Some (bucket_at (bucketIndex hash key hint c) c).
Proof.
  intros Hwf%reachable_wf. pose proof Hwf as [He Hn _ _].
  split; [done|].
  rewrite Hn, !land_mask by lia. rewrite bucketIndex_value by done.
  split; [|split; [|split]].
  - intros Hh. by rewrite bool_decide_eq_true_2.
  - intros Hh. by rewrite bool_decide_eq_false_2 by lia.
  - rewrite <- (bucketIndex_value _ c key hint Hwf), <- Hn.
    by apply bucketIndex_range.
  - rewrite <- (bucketIndex_value _ c key hint Hwf).
    destruct (bucket_at_index hash c key hint Hwf) as (b & -> & _).
    by eexists.
Qed.

(** C5: [insert] never overwrites or refreshes a key that is there.  From
    any state, [insert(k, v1)] then [insert(k, v2)] then [get(k)]: the
    second insert leaves the whole cache, recency order included, as the
    first left it, and [get] returns the value the shard held for [k] after
    the first insert.  That value is [v1] when [k] was not in its shard
    before (and [get] then changes nothing, [k] being at the head already);
    when [k] was there, the first insert changed nothing either and the
    value is the one stored before. *)
Theorem insert_no_overwrite c k v1 v2 h :
  reachable hash c →
  ∃ c1 w c2,
    insert hash k v1 h c = Some c1 ∧
    insert hash k v2 h c1 = Some c1 ∧
    get hash k h c1 = Some (OfValue w, c2) ∧
    (contains hash k h c = Some false → w = v1 ∧ c2 = c1) ∧
    (contains hash k h c = Some true →
       c1 = c ∧ stored k (bucketIndex hash k h c) c = Some w).
Proof.
  intros Hwf%reachable_wf.
  destruct (bucket_at_index hash c k h Hwf) as (b & Hb & Hbwf).
  pose proof (contains_at hash _ _ _ _ Hb (LRU.wf_linked _ Hbwf)) as Hc.
  destruct (decide (k ∈ LRU.keys (Bucket.lru_ b))) as [Hk|Hk].
  - assert (∀ v, insert hash k v h c = Some c) as Hnoop.
    { intros v.
      rewrite (insert_at hash c k v h b (Bucket.lru_ b) Hb)
        by (apply insert_present; [apply Hbwf|done]).
      by rewrite bucket_eta, set_bucket_same. }
    rewrite Hc, bool_decide_eq_true_2 by done.
    destruct (get_hit_cache hash c k h Hwf) as (w & c2 & ks & Hw & _ & Hg & _).
    { by rewrite Hc, bool_decide_eq_true_2. }
    exists c, w, c2. rewrite !Hnoop. done.
  - destruct (insert_absent _ k v1 Hbwf Hk) as (l' & Hi & Hwf' & _ & Hkeys & Hv & _).
    rewrite (insert_at hash c k v1 h b l' Hb Hi).
    set (i := bucketIndex hash k h c) in *.
    set (c1 := set_bucket i (Bucket.mk l') c).
    assert (bucket_at (bucketIndex hash k h c1) c1 = Some (Bucket.mk l')) as Hb1.
    { by apply (bucket_at_set c i b). }
    destruct (get_head l' k _ (LRU.wf_linked _ Hwf') Hkeys) as (v & Hv' & Hg).
    rewrite Hv in Hv'. injection Hv' as <-.
    exists c1, v1, c1. split; [done|]. split; [|split; [|split]].
    + rewrite (insert_at hash c1 k v2 h _ l' Hb1).
      * f_equal. by apply set_bucket_same.
      * apply insert_present; [apply Hwf'|]. simpl. rewrite Hkeys. by left.
    + rewrite (get_at hash c1 k h _ v1 l' Hb1 Hg).
      by rewrite set_bucket_same.
    + done.
    + rewrite Hc, bool_decide_eq_false_2 by done. done.
Qed.

(** C6: after a valid construction and any sequence of calls (insert,
    get, putIfAbsent, evict, contains, clear), every call is defined, each
    shard still has the capacity it was given, the size of each shard is
    at most that capacity, and the sizes add up to at most the total
    capacity. *)
Theorem capacity_bound capacity bucketsExp c0 ops :
  args_ok capacity bucketsExp →
  construct capacity bucketsExp = Some c0 →
  ∃ c, run hash ops c0 = Some c ∧
    capacities c = capacities c0 ∧
    Forall2 Z.le (sizes c) (capacities c) ∧
    total (sizes c) ≤ capacity.
Proof.
  intros Hargs Hc0. pose proof (construct_wf _ _ _ Hargs Hc0) as Hwf0.
  destruct (run_kept hash ops c0 Hwf0) as (c & Hrun & Hwf & Hcaps).
  exists c. split; [done|]. split; [done|].
  destruct (sizes_bounded c Hwf) as [Hall Hsum]. split; [done|].
  rewrite Hcaps in Hsum.
  by rewrite (proj2 (total_capacities _ _ _ Hargs Hc0)) in Hsum.
Qed.

(** C7: [get] of a key that is not in its shard returns the error status
    and leaves the whole cache as it was; [get] of a key that is in its
    shard returns the stored value and moves the key to the head of the
    recency order of that shard, the other keys keeping their order, the
    stored values and the other shards staying as they were. *)
Theorem get_spec c key hint :
  reachable hash c →
  (contains hash key hint c = Some false →
     get hash key hint c = Some (OfStatus Error, c)) ∧
  (contains hash key hint c = Some true →
     ∃ v c' ks,
       stored key (bucketIndex hash key hint c) c = Some v ∧
       recency (bucketIndex hash key hint c) c = Some ks ∧
       get hash key hint c = Some (OfValue v, c') ∧
       recency (bucketIndex hash key hint c) c'
         = Some (key :: filter (λ x, x ≠ key) ks) ∧
       (∀ k, stored k (bucketIndex hash key hint c) c'
             = stored k (bucketIndex hash key hint c) c) ∧
       (∀ i, 0 ≤ i → i ≠ bucketIndex hash key hint c →
             bucket_at i c' = bucket_at i c)).
Proof.
  intros Hwf%reachable_wf. split.
  - by apply get_miss_cache.
  - by apply get_hit_cache.
Qed.

(** C8: [evict] is idempotent.  Evicting a key that is not in its shard
    is defined and leaves the whole cache as it was, and evicting any key
    a second time leaves the cache as the first eviction left it. *)
Theorem evict_idempotent c key hint :
  reachable hash c →
  (contains hash key hint c = Some false → evict hash key hint c = Some c) ∧
  (∃ c1, evict hash key hint c = Some c1 ∧ evict hash key hint c1 = Some c1 ∧
     contains hash key hint c1 = Some false).
Proof.
  intros Hwf%reachable_wf.
  destruct (bucket_at_index hash c key hint Hwf) as (b & Hb & Hbwf).
  destruct (evict_spec _ key Hbwf) as (l' & He & Hwf' & _ & Hkeys & Hsame & _).
  rewrite (evict_at hash c key hint b l' Hb He).
  set (i := bucketIndex hash key hint c) in *. split.
  - intros Hc.
    pose proof (contains_false hash _ _ _ _ Hb (LRU.wf_linked _ Hbwf) Hc) as Hk.
    rewrite (Hsame Hk), bucket_eta. by rewrite set_bucket_same.
  - set (c1 := set_bucket i (Bucket.mk l') c).
    assert (bucket_at (bucketIndex hash key hint c1) c1 = Some (Bucket.mk l')) as Hb1.
    { by apply (bucket_at_set c i b). }
    assert (key ∉ LRU.keys l') as Hk.
    { rewrite Hkeys. intros Hin%list_elem_of_filter. by destruct Hin. }
    exists c1. split; [done|]. split.
    + rewrite (evict_at hash c1 key hint _ l' Hb1).
      * f_equal. by apply set_bucket_same.
      * apply evict_absent; [done|apply Hwf'].
    + rewrite (contains_at hash c1 key hint _ Hb1) by apply Hwf'.
      simpl. by rewrite bool_decide_eq_false_2.
Qed.

(** C9: [contains] answers true exactly when the key is in the shard the
    routing selects (it is in the recency order of that shard, and that
    shard stores a value for it), and the call leaves the cache as it
    was. *)
Theorem contains_spec c key hint :
  reachable hash c →
  ∃ ks, recency (bucketIndex hash key hint c) c = Some ks ∧
    contains hash key hint c = Some (bool_decide (key ∈ ks)) ∧
    (key ∈ ks ↔ is_Some (stored key (bucketIndex hash key hint c) c)) ∧
    step hash (Contains key hint) c = Some c.
Proof.
  intros Hwf%reachable_wf.
  destruct (bucket_at_index hash c key hint Hwf) as (b & Hb & Hbwf).
  pose proof (contains_at hash _ _ _ _ Hb (LRU.wf_linked _ Hbwf)) as Hc.
  exists (LRU.keys (Bucket.lru_ b)). unfold recency, stored. simpl.
  rewrite Hb, Hc. simpl. split; [done|]. split; [done|]. split; [|done].
  symmetry. apply linked_value, Hbwf.
Qed.

(** C10: [putIfAbsent] on a key that is in its shard does what [get]
    does: it returns the stored value and moves the key to the head of
    the recency order of the shard, and the resulting cache is the one
    [get] would have produced. *)
Theorem putIfAbsent_promotes c key val hint :
  reachable hash c →
  contains hash key hint c = Some true →
  putIfAbsent hash key val hint c = get hash key hint c ∧
  ∃ v c' ks,
    stored key (bucketIndex hash key hint c) c = Some v ∧
    recency (bucketIndex hash key hint c) c = Some ks ∧
    putIfAbsent hash key val hint c = Some (OfValue v, c') ∧
    recency (bucketIndex hash key hint c) c'
      = Some (key :: filter (λ x, x ≠ key) ks) ∧
    stored key (bucketIndex hash key hint c) c' = Some v.
Proof.
  intros Hwf%reachable_wf Hc.
  destruct (bucket_at_index hash c key hint Hwf) as (b & Hb & Hbwf).
  pose proof (contains_true hash _ _ _ _ Hb (LRU.wf_linked _ Hbwf) Hc) as Hk.
  assert (putIfAbsent hash key val hint c = get hash key hint c) as Heq.
  { unfold putIfAbsent, get. rewrite Hb. simpl.
    by rewrite bucket_putIfAbsent_hit. }
  split; [done|]. rewrite Heq.
  destruct (get_hit_cache hash c key hint Hwf Hc)
    as (v & c' & ks & Hv & Hks & Hg & Hks' & Hvals & _).
  exists v, c', ks. by rewrite Hvals.
Qed.
End claims.

(** * Further properties of the code *)

Section further.
Context {K : Type} `{Countable K} {V : Type}.
Variable hash : K → Z.
Local Open Scope Z_scope.

Import ConcurrentLRUCache.
Implicit Types (c : ConcurrentLRUCache.t K V) (b : Bucket.t K V).
Implicit Types (key k : K) (hint i : Z).

(** ** What is seen of a cache after one bucket was replaced *)

Lemma recency_set c i b b' :
  bucket_at i c = Some b →
  recency i (set_bucket i b' c) = Some (LRU.keys (Bucket.lru_ b')).
Proof. intros Hb. unfold recency. by rewrite (bucket_at_set _ _ _ _ Hb). Qed.

Lemma stored_set c i b b' k :
  bucket_at i c = Some b →
  stored k i (set_bucket i b' c) = LRU.value k (Bucket.lru_ b').
Proof. intros Hb. unfold stored. by rewrite (bucket_at_set _ _ _ _ Hb). Qed.

Lemma contains_set c i b b' key hint :
  bucketIndex hash key hint c = i → bucket_at i c = Some b →
  LRU.linked (Bucket.lru_ b') →
  contains hash key hint (set_bucket i b' c)
    = Some (bool_decide (key ∈ LRU.keys (Bucket.lru_ b'))).
Proof.
  intros Hi Hb Hl. apply contains_at; [|done].
  change (bucketIndex hash key hint (set_bucket i b' c))
    with (bucketIndex hash key hint c).
  rewrite Hi. by eapply bucket_at_set.
Qed.

Lemma bucketIndex_nonneg c key hint : 0 ≤ bucketIndex hash key hint c.
Proof.
  unfold bucketIndex, to_uint32. case_bool_decide; by apply Z.mod_pos_bound.
Qed.

Lemma run_reachable ops c c' :
  reachable hash c → run hash ops c = Some c' → reachable hash c'.
Proof.
  revert c. induction ops as [|o ops IH]; simpl; intros c Hr Hrun.
  - by simplify_eq.
  - destruct (step hash o c) as [c1|] eqn:Hs; simplify_eq/=.
    eapply IH; [|done]. by eapply reachable_step.
Qed.

(** [get] of the key at the head of its shard changes nothing. *)
Lemma get_at_head c key hint rest :
  wf c → recency (bucketIndex hash key hint c) c = Some (key :: rest) →
  ∃ v, stored key (bucketIndex hash key hint c) c = Some v ∧
    get hash key hint c = Some (OfValue v, c).
Proof.
  intros Hwf Hrec. destruct (bucket_at_index hash c key hint Hwf) as (b & Hb & Hbwf).
  unfold recency, stored in *. rewrite Hb in Hrec |- *. simpl in *.
  injection Hrec as Hkeys.
  destruct (get_head _ key rest (LRU.wf_linked _ Hbwf) Hkeys) as (v & Hv & Hg).
  exists v. split; [done|].
  rewrite (get_at hash c key hint b v _ Hb Hg).
  by rewrite bucket_eta, set_bucket_same.
Qed.

(** ** clear *)

Lemma clear_from_buckets (n : nat) i c :
  wf c → 0 ≤ i → i + Z.of_nat n ≤ bucketsNum_ c →
  ∃ c', clear_from n i c = Some c' ∧
    bucketsNum_ c' = bucketsNum_ c ∧ bucketsExp_ c' = bucketsExp_ c ∧
    ∀ j : nat, buckets_ c' !! j =
      if bool_decide (i ≤ Z.of_nat j < i + Z.of_nat n)
      then Bucket.clear <$> buckets_ c !! j else buckets_ c !! j.
Proof.
  revert i c. induction n as [|n IH]; intros i c Hwf Hi Hn.
  - exists c. split; [done|]. split; [done|]. split; [done|].
    intros j. by rewrite bool_decide_eq_false_2 by lia.
  - destruct (bucket_at_range c i Hwf) as (b & Hb & Hbwf); [lia|].
    simpl. rewrite Hb. simpl.
    destruct (set_bucket_wf c i b (Bucket.clear b) Hwf Hb) as [Hwf' _].
    { by apply bucket_clear_kept. }
    destruct (IH (i + 1) _ Hwf') as (c' & Hc' & Hnum & Hexp & Hlook);
      [lia|simpl; lia|].
    exists c'. split; [done|]. split; [done|]. split; [done|].
    intros j. rewrite Hlook. simpl. unfold bucket_at in Hb.
    destruct (decide (j = Z.to_nat i)) as [->|Hne].
    + rewrite list_lookup_insert_eq by (by eapply lookup_lt_Some).
      rewrite bool_decide_eq_false_2, bool_decide_eq_true_2 by lia.
      by rewrite Hb.
    + rewrite list_lookup_insert_ne by done.
      repeat case_bool_decide; (done || lia).
Qed.

Lemma clear_buckets c :
  wf c →
  ∃ c', clear c = Some c' ∧
    bucketsNum_ c' = bucketsNum_ c ∧ bucketsExp_ c' = bucketsExp_ c ∧
    buckets_ c' = Bucket.clear <$> buckets_ c.
Proof.
  intros Hwf. pose proof (wf_len _ Hwf) as Hlen.
  destruct (clear_from_buckets (Z.to_nat (bucketsNum_ c)) 0 c Hwf)
    as (c' & Hc' & Hnum & Hexp & Hlook); [lia..|].
  exists c'. split; [done|]. split; [done|]. split; [done|].
  apply list_eq. intros j. rewrite Hlook, list_lookup_fmap.
  case_bool_decide as Hj; [done|].
  rewrite (lookup_ge_None_2 (buckets_ c) j) by lia. done.
Qed.

(** X1: [clear()] is defined on every reachable cache and empties every
    bucket: all sizes are zero, the capacities are the ones the buckets had,
    no key is contained under any hint, and every [get] misses. *)
Theorem clear_empties c :
  reachable hash c →
  ∃ c', clear c = Some c' ∧
    capacities c' = capacities c ∧
    sizes c' = replicate (length (buckets_ c)) 0 ∧
    ∀ key hint,
      contains hash key hint c' = Some false ∧
      get hash key hint c' = Some (OfStatus Error, c').
Proof.
  intros Hr. pose proof (reachable_wf hash c Hr) as Hwf.
  destruct (clear_buckets c Hwf) as (c' & Hc' & Hnum & Hexp & Hbs).
  assert (reachable hash c') as Hr'.
  { by apply (reachable_step hash Clear c). }
  pose proof (reachable_wf hash c' Hr') as Hwf'.
  exists c'. split; [done|]. split; [|split].
  - unfold capacities. rewrite Hbs, <- list_fmap_compose. done.
  - unfold sizes. rewrite Hbs, <- list_fmap_compose.
    clear. induction (buckets_ c) as [|b bs IH]; [done|].
    simpl. f_equal. exact IH.
  - intros key hint.
    assert (contains hash key hint c' = Some false) as Hc.
    { destruct (bucket_at_index hash c' key hint Hwf') as (b & Hb & Hbwf).
      rewrite (contains_at hash _ _ _ _ Hb (LRU.wf_linked _ Hbwf)).
      unfold bucket_at in Hb. rewrite Hbs, list_lookup_fmap in Hb.
      destruct (buckets_ c !! _) as [b0|]; by simplify_eq/=. }
    split; [done|]. by apply get_miss_cache.
Qed.

(** ** The constructor *)

(** X2: a cache that was just constructed is empty and all its buckets can
    hold at least one entry: the sizes are zero, every capacity is at least
    1, no key is contained under any hint and every [get] misses, leaving
    the cache as it is. *)
Theorem construct_empty capacity bucketsExp c :
  args_ok capacity bucketsExp →
  construct capacity bucketsExp = Some c →
  Z.of_nat (length (buckets_ c)) = 2 ^ bucketsExp ∧
  sizes c = replicate (length (buckets_ c)) 0 ∧
  Forall (λ x, 1 ≤ x) (capacities c) ∧
  ∀ key hint,
    contains hash key hint c = Some false ∧
    get hash key hint c = Some (OfStatus Error, c).
Proof.
  intros Hargs Hc. pose proof (construct_wf _ _ _ Hargs Hc) as Hwf.
  pose proof Hargs as [Hcap He]. pose proof (pow2_bounds _ He) as Hp.
  destruct (decide (2 ^ bucketsExp < capacity)) as [Hlt|Hge].
  2:{ rewrite construct_refused in Hc by (done || lia). done. }
  destruct (per_bucket_bounds _ _ Hargs Hlt) as (Hq & _ & Hrem).
  rewrite construct_value in Hc by done. injection Hc as Hc.
  assert (buckets_ c
    = replicate (Z.to_nat (2 ^ bucketsExp - 1))
        (Bucket.create (capacity / 2 ^ bucketsExp))
      ++ [Bucket.create (capacity / 2 ^ bucketsExp
                         + capacity mod 2 ^ bucketsExp)]) as Hbs.
  { by rewrite <- Hc. }
  split; [|split; [|split]].
  - rewrite Hbs, length_app, length_replicate. simpl. lia.
  - unfold sizes. rewrite Hbs, fmap_app, fmap_replicate. simpl.
    rewrite length_app, length_replicate. simpl.
    replace (Z.to_nat (2 ^ bucketsExp - 1) + 1)%nat
      with (S (Z.to_nat (2 ^ bucketsExp - 1))) by lia.
    rewrite replicate_S_end. done.
  - unfold capacities. rewrite Hbs, fmap_app, fmap_replicate. simpl.
    apply Forall_app. split.
    + apply Forall_replicate. unfold LRU.capacity. simpl. lia.
    + apply Forall_singleton. unfold LRU.capacity. simpl. lia.
  - intros key hint.
    assert (contains hash key hint c = Some false) as Hcont.
    { destruct (bucket_at_index hash c key hint Hwf) as (b & Hb & Hbwf).
      rewrite (contains_at hash _ _ _ _ Hb (LRU.wf_linked _ Hbwf)).
      unfold bucket_at in Hb. rewrite Hbs in Hb.
      apply list_elem_of_lookup_2 in Hb.
      apply elem_of_app in Hb as [Hb|Hb].
      - apply elem_of_replicate in Hb as [-> _].
        by rewrite bool_decide_eq_false_2 by apply not_elem_of_nil.
      - apply list_elem_of_singleton in Hb as ->.
        by rewrite bool_decide_eq_false_2 by apply not_elem_of_nil. }
    split; [done|]. by apply get_miss_cache.
Qed.

(** ** insert of a key that is not there *)

Lemma value_absent (l : LRU.t K V) k :
  LRU.linked l → k ∉ LRU.keys l → LRU.value k l = None.
Proof.
  intros Hl Hk. apply eq_None_not_Some. by rewrite (linked_value _ _ Hl).
Qed.

Lemma insert_absent_cache c key val hint :
  wf c → contains hash key hint c = Some false →
  ∃ b l', bucket_at (bucketIndex hash key hint c) c = Some b ∧
    LRU.wf (Bucket.lru_ b) ∧ (key ∉ LRU.keys (Bucket.lru_ b)) ∧
    insert hash key val hint c
      = Some (set_bucket (bucketIndex hash key hint c) (Bucket.mk l') c) ∧
    LRU.insert key val (Bucket.lru_ b) = Some l' ∧
    LRU.wf l' ∧
    LRU.capacity_ l' = LRU.capacity_ (Bucket.lru_ b) ∧
    LRU.keys l' = key :: take (Z.to_nat (LRU.capacity_ (Bucket.lru_ b)) - 1)
                           (LRU.keys (Bucket.lru_ b)) ∧
    LRU.value key l' = Some val ∧
    (∀ k, k ∈ LRU.keys l' → k ≠ key →
          LRU.value k l' = LRU.value k (Bucket.lru_ b)).
Proof.
  intros Hwf Hc. destruct (bucket_at_index hash c key hint Hwf) as (b & Hb & Hbwf).
  pose proof (contains_false hash _ _ _ _ Hb (LRU.wf_linked _ Hbwf) Hc) as Hk.
  destruct (insert_absent _ key val Hbwf Hk) as (l' & Hi & Hrest).
  exists b, l'. split; [done|]. split; [done|]. split; [done|].
  split; [by apply (insert_at hash c key val hint b l')|]. by split.
Qed.

(** X3: inserting a key that is not in its shard, while the shard holds
    fewer keys than its capacity, evicts nothing: the key goes to the head
    of the recency order, the other keys keep their order, the key is
    stored with the given value and every other stored value is as it
    was. *)
Theorem insert_with_room c key val hint ks cap :
  reachable hash c →
  contains hash key hint c = Some false →
  recency (bucketIndex hash key hint c) c = Some ks →
  capacities c !! Z.to_nat (bucketIndex hash key hint c) = Some cap →
  Z.of_nat (length ks) < cap →
  ∃ c', insert hash key val hint c = Some c' ∧
    recency (bucketIndex hash key hint c) c' = Some (key :: ks) ∧
    stored key (bucketIndex hash key hint c) c' = Some val ∧
    (∀ k, k ≠ key → stored k (bucketIndex hash key hint c) c'
                     = stored k (bucketIndex hash key hint c) c).
Proof.
  intros Hwf%reachable_wf Hc Hks Hcap Hlen.
  destruct (insert_absent_cache c key val hint Hwf Hc)
    as (b & l' & Hb & Hbwf & Hk & Hins & _ & Hwf' & _ & Hkeys & Hv & Hvals).
  set (i := bucketIndex hash key hint c) in *.
  unfold recency in Hks. rewrite Hb in Hks. injection Hks as <-.
  unfold capacities in Hcap. unfold bucket_at in Hb.
  rewrite list_lookup_fmap, Hb in Hcap. injection Hcap as Hcap.
  unfold LRU.capacity in Hcap. fold (bucket_at i c) in Hb.
  rewrite Hcap, take_ge in Hkeys by lia.
  eexists. split; [done|].
  rewrite (recency_set _ _ _ _ Hb). simpl. split; [by rewrite Hkeys|].
  split; [by rewrite (stored_set _ _ _ _ _ Hb)|].
  intros k Hne. rewrite (stored_set _ _ _ _ _ Hb). unfold stored.
  rewrite Hb. simpl. destruct (decide (k ∈ LRU.keys (Bucket.lru_ b))) as [Hin|Hin].
  - apply Hvals; [|done]. rewrite Hkeys. by right.
  - rewrite !value_absent; [done|apply Hbwf|done|apply Hwf'|].
    rewrite Hkeys. by apply not_elem_of_cons.
Qed.

(** X4: inserting a key that is not in its shard, while the shard is full,
    evicts the key at the tail of the recency order and no other: the new
    key goes to the head, the remaining keys keep their order and their
    values, and the evicted key has no stored value any more. *)
Theorem insert_when_full c key val hint ks cap :
  reachable hash c →
  contains hash key hint c = Some false →
  recency (bucketIndex hash key hint c) c = Some ks →
  capacities c !! Z.to_nat (bucketIndex hash key hint c) = Some cap →
  Z.of_nat (length ks) = cap →
  ∃ c' ks' old, ks = ks' ++ [old] ∧
    insert hash key val hint c = Some c' ∧
    recency (bucketIndex hash key hint c) c' = Some (key :: ks') ∧
    stored key (bucketIndex hash key hint c) c' = Some val ∧
    stored old (bucketIndex hash key hint c) c' = None ∧
    (∀ k, k ≠ key → k ≠ old →
          stored k (bucketIndex hash key hint c) c'
          = stored k (bucketIndex hash key hint c) c).
Proof.
  intros Hwf%reachable_wf Hc Hks Hcap Hlen.
  destruct (insert_absent_cache c key val hint Hwf Hc)
    as (b & l' & Hb & Hbwf & Hk & Hins & _ & Hwf' & _ & Hkeys & Hv & Hvals).
  set (i := bucketIndex hash key hint c) in *.
  unfold recency in Hks. rewrite Hb in Hks. injection Hks as <-.
  unfold capacities in Hcap. unfold bucket_at in Hb.
  rewrite list_lookup_fmap, Hb in Hcap. injection Hcap as Hcap.
  unfold LRU.capacity in Hcap. fold (bucket_at i c) in Hb.
  pose proof (LRU.wf_capacity _ Hbwf) as Hpos.
  destruct (last (LRU.keys (Bucket.lru_ b))) as [old|] eqn:Hlast.
  2:{ apply last_None in Hlast. rewrite Hlast in Hlen. simpl in Hlen. lia. }
  apply last_Some in Hlast as [ks' Hsplit].
  pose proof (LRU.linked_keys _ (LRU.wf_linked _ Hbwf)) as Hnd.
  fold (LRU.keys (Bucket.lru_ b)) in Hnd.
  rewrite Hsplit in Hlen, Hnd, Hk. rewrite length_app in Hlen. simpl in Hlen.
  apply NoDup_app in Hnd as (_ & Hnd & _).
  rewrite Hsplit, take_app_length' in Hkeys by lia.
  assert (old ∉ LRU.keys l') as Hold.
  { rewrite Hkeys. apply not_elem_of_cons. split.
    - intros ->. apply Hk. apply elem_of_app. right. by left.
    - intros Hin. apply (Hnd old Hin). by left. }
  exists (set_bucket i (Bucket.mk l') c), ks', old.
  split; [done|]. split; [done|].
  rewrite (recency_set _ _ _ _ Hb). simpl. split; [by rewrite Hkeys|].
  rewrite !(stored_set _ _ _ _ _ Hb). simpl. split; [done|].
  split; [apply value_absent; [apply Hwf'|done]|].
  intros k Hne Hne'. rewrite (stored_set _ _ _ _ _ Hb). unfold stored.
  rewrite Hb. simpl. destruct (decide (k ∈ ks')) as [Hin|Hin].
  - apply Hvals; [|done]. rewrite Hkeys. by right.
  - rewrite !value_absent; [done|apply Hbwf| |apply Hwf'|].
    + rewrite Hsplit. intros [?|Hx%list_elem_of_singleton]%elem_of_app; done.
    + rewrite Hkeys. by apply not_elem_of_cons.
Qed.

(** ** putIfAbsent *)

Lemma putIfAbsent_hit_cache c key val hint :
  wf c → contains hash key hint c = Some true →
  putIfAbsent hash key val hint c = get hash key hint c.
Proof.
  intros Hwf Hc. destruct (bucket_at_index hash c key hint Hwf) as (b & Hb & Hbwf).
  pose proof (contains_true hash _ _ _ _ Hb (LRU.wf_linked _ Hbwf) Hc) as Hk.
  unfold putIfAbsent, get. rewrite Hb. simpl.
  by rewrite bucket_putIfAbsent_hit.
Qed.

Lemma putIfAbsent_miss_cache c key val hint :
  wf c → contains hash key hint c = Some false →
  ∃ c' rest, putIfAbsent hash key val hint c = Some (OfStatus Inserted, c') ∧
    insert hash key val hint c = Some c' ∧
    recency (bucketIndex hash key hint c) c' = Some (key :: rest) ∧
    stored key (bucketIndex hash key hint c) c' = Some val ∧
    contains hash key hint c' = Some true.
Proof.
  intros Hwf Hc.
  destruct (insert_absent_cache c key val hint Hwf Hc)
    as (b & l' & Hb & Hbwf & Hk & Hins & Hi & Hwf' & _ & Hkeys & Hv & _).
  eexists _, _. split; [|split; [exact Hins|]].
  - unfold putIfAbsent. rewrite Hb. simpl.
    rewrite bucket_putIfAbsent_miss by (done || apply Hbwf).
    rewrite Hi. done.
  - rewrite (recency_set _ _ _ _ Hb), (stored_set _ _ _ _ _ Hb). simpl.
    split; [by rewrite Hkeys|]. split; [done|].
    rewrite (contains_set c _ b _ key hint eq_refl Hb) by apply Hwf'.
    simpl. rewrite Hkeys. rewrite bool_decide_eq_true_2; [done|by left].
Qed.

(** X5: [putIfAbsent] of a key that is not in its shard reports
    [Status::Inserted] and leaves exactly the cache [insert] would have
    left; the key is then contained and stored with the given value. *)
Theorem putIfAbsent_inserts c key val hint :
  reachable hash c →
  contains hash key hint c = Some false →
  ∃ c', putIfAbsent hash key val hint c = Some (OfStatus Inserted, c') ∧
    insert hash key val hint c = Some c' ∧
    contains hash key hint c' = Some true ∧
    stored key (bucketIndex hash key hint c) c' = Some val.
Proof.
  intros Hwf%reachable_wf Hc.
  destruct (putIfAbsent_miss_cache c key val hint Hwf Hc)
    as (c' & rest & Hp & Hi & _ & Hv & Hc').
  by exists c'.
Qed.

(** X6: of two consecutive [putIfAbsent] calls on one key at most the
    first inserts.  The second returns the value the shard holds for the
    key (the first call's value when the key was not there before, the
    value stored before otherwise), discards its own value and leaves the
    cache as the first call left it. *)
Theorem putIfAbsent_twice c key v1 v2 hint :
  reachable hash c →
  ∃ r c1 w,
    putIfAbsent hash key v1 hint c = Some (r, c1) ∧
    putIfAbsent hash key v2 hint c1 = Some (OfValue w, c1) ∧
    (contains hash key hint c = Some false → r = OfStatus Inserted ∧ w = v1) ∧
    (contains hash key hint c = Some true →
       r = OfValue w ∧ stored key (bucketIndex hash key hint c) c = Some w).
Proof.
  intros Hr. pose proof (reachable_wf hash c Hr) as Hwf.
  destruct (bucket_at_index hash c key hint Hwf) as (b & Hb & Hbwf).
  pose proof (contains_at hash _ _ _ _ Hb (LRU.wf_linked _ Hbwf)) as Hc.
  assert (∃ r c1 w rest,
    putIfAbsent hash key v1 hint c = Some (r, c1) ∧
    recency (bucketIndex hash key hint c) c1 = Some (key :: rest) ∧
    stored key (bucketIndex hash key hint c) c1 = Some w ∧
    contains hash key hint c1 = Some true ∧
    (contains hash key hint c = Some false → r = OfStatus Inserted ∧ w = v1) ∧
    (contains hash key hint c = Some true →
       r = OfValue w ∧ stored key (bucketIndex hash key hint c) c = Some w))
    as (r & c1 & w & rest & Hp & Hrec & Hst & Hc1 & Habs & Hpres).
  { destruct (decide (key ∈ LRU.keys (Bucket.lru_ b))) as [Hk|Hk].
    - rewrite bool_decide_eq_true_2 in Hc by done.
      rewrite (putIfAbsent_hit_cache c key v1 hint Hwf Hc).
      destruct (get_hit_cache hash c key hint Hwf Hc)
        as (w & c1 & ks & Hw & Hks & Hg & Hks' & Hvals & _).
      exists (OfValue w), c1, w, (filter (λ x, x ≠ key) ks).
      split; [done|]. split; [done|]. split; [by rewrite Hvals|].
      split; [|by rewrite Hc].
      assert (wf c1) as Hwf1.
      { apply (reachable_wf hash), (reachable_step hash (Get key hint) c); [done|].
        simpl. by rewrite Hg. }
      destruct (bucket_at_index hash c1 key hint Hwf1) as (b1 & Hb1 & Hbwf1).
      rewrite (contains_at hash _ _ _ _ Hb1 (LRU.wf_linked _ Hbwf1)).
      assert (bucketIndex hash key hint c1 = bucketIndex hash key hint c) as Hsame.
      { unfold get in Hg. rewrite Hb in Hg. simpl in Hg.
        destruct (Bucket.get key b); simplify_eq/=. done. }
      rewrite Hsame in Hb1. unfold recency in Hks'. rewrite Hb1 in Hks'.
      injection Hks' as ->. rewrite bool_decide_eq_true_2; [done|by left].
    - rewrite bool_decide_eq_false_2 in Hc by done.
      destruct (putIfAbsent_miss_cache c key v1 hint Hwf Hc)
        as (c1 & rest & Hp & _ & Hrec & Hv & Hc1).
      exists (OfStatus Inserted), c1, v1, rest. rewrite Hc. by repeat split. }
  exists r, c1, w. split; [done|]. split; [|by split].
  assert (wf c1) as Hwf1.
  { apply (reachable_wf hash), (reachable_step hash (PutIfAbsent key v1 hint) c);
      [done|]. simpl. by rewrite Hp. }
  assert (bucketIndex hash key hint c1 = bucketIndex hash key hint c) as Hsame.
  { unfold putIfAbsent in Hp. rewrite Hb in Hp. simpl in Hp.
    destruct (Bucket.putIfAbsent key v1 b); simplify_eq/=. done. }
  rewrite (putIfAbsent_hit_cache c1 key v2 hint Hwf1 Hc1).
  rewrite <- Hsame in Hrec, Hst.
  destruct (get_at_head c1 key hint rest Hwf1 Hrec) as (v & Hv & Hg).
  rewrite Hst in Hv. by injection Hv as <-.
Qed.

(** ** evict *)

Lemma evict_cache c key hint :
  wf c →
  ∃ b l', bucket_at (bucketIndex hash key hint c) c = Some b ∧
    LRU.wf (Bucket.lru_ b) ∧
    evict hash key hint c
      = Some (set_bucket (bucketIndex hash key hint c) (Bucket.mk l') c) ∧
    LRU.wf l' ∧
    LRU.capacity_ l' = LRU.capacity_ (Bucket.lru_ b) ∧
    LRU.keys l' = filter (λ x, x ≠ key) (LRU.keys (Bucket.lru_ b)) ∧
    (∀ k, k ≠ key → LRU.value k l' = LRU.value k (Bucket.lru_ b)).
Proof.
  intros Hwf. destruct (bucket_at_index hash c key hint Hwf) as (b & Hb & Hbwf).
  destruct (evict_spec _ key Hbwf) as (l' & He & Hwf' & Hcap & Hkeys & _ & Hvals).
  exists b, l'. split; [done|]. split; [done|].
  split; [by apply (evict_at hash c key hint b l')|]. done.
Qed.

(** X7: [evict] takes the key, and only the key, out of its shard: the
    other keys keep their recency order and their values, the key has no
    stored value and is not contained any more, the other buckets and all
    capacities are as they were. *)
Theorem evict_removes_key c key hint :
  reachable hash c →
  ∃ c' ks, recency (bucketIndex hash key hint c) c = Some ks ∧
    evict hash key hint c = Some c' ∧
    recency (bucketIndex hash key hint c) c'
      = Some (filter (λ x, x ≠ key) ks) ∧
    contains hash key hint c' = Some false ∧
    stored key (bucketIndex hash key hint c) c' = None ∧
    (∀ k, k ≠ key → stored k (bucketIndex hash key hint c) c'
                     = stored k (bucketIndex hash key hint c) c) ∧
    (∀ i, 0 ≤ i → i ≠ bucketIndex hash key hint c →
          bucket_at i c' = bucket_at i c) ∧
    capacities c' = capacities c.
Proof.
  intros Hwf%reachable_wf.
  destruct (evict_cache c key hint Hwf)
    as (b & l' & Hb & Hbwf & He & Hwf' & Hcap & Hkeys & Hvals).
  assert (key ∉ LRU.keys l') as Hk.
  { rewrite Hkeys. intros Hin%list_elem_of_filter. by destruct Hin. }
  eexists _, _. split; [by unfold recency; rewrite Hb|].
  split; [exact He|].
  rewrite (recency_set _ _ _ _ Hb), !(stored_set _ _ _ _ _ Hb). simpl.
  split; [by rewrite Hkeys|].
  split.
  { rewrite (contains_set c _ b _ key hint eq_refl Hb) by apply Hwf'.
    simpl. by rewrite bool_decide_eq_false_2. }
  split; [apply value_absent; [apply Hwf'|done]|].
  split.
  { intros k Hne. rewrite (stored_set _ _ _ _ _ Hb). unfold stored.
    rewrite Hb. simpl. by apply Hvals. }
  split.
  { intros i Hi Hne. apply bucket_at_set_ne; [apply bucketIndex_nonneg|done..]. }
  by eapply set_bucket_wf.
Qed.

(** X8: to replace the value of a key one evicts it and inserts it again:
    after [evict(k)] and [insert(k, v)] the key is at the head of its
    shard, [get(k)] returns [v] and changes nothing. *)
Theorem evict_then_insert c key val hint :
  reachable hash c →
  ∃ c1 c2 rest,
    evict hash key hint c = Some c1 ∧
    insert hash key val hint c1 = Some c2 ∧
    recency (bucketIndex hash key hint c) c2 = Some (key :: rest) ∧
    get hash key hint c2 = Some (OfValue val, c2).
Proof.
  intros Hr. pose proof (reachable_wf hash c Hr) as Hwf.
  destruct (evict_cache c key hint Hwf)
    as (b & l1 & Hb & Hbwf & He & Hwf1 & _ & Hkeys1 & _).
  set (i := bucketIndex hash key hint c) in *.
  set (c1 := set_bucket i (Bucket.mk l1) c) in *.
  assert (wf c1) as Hwfc1.
  { apply (reachable_wf hash), (reachable_step hash (Evict key hint) c); done. }
  assert (contains hash key hint c1 = Some false) as Hc1.
  { unfold c1. rewrite (contains_set c i b _ key hint eq_refl Hb) by apply Hwf1.
    simpl. rewrite bool_decide_eq_false_2; [done|].
    rewrite Hkeys1. intros Hin%list_elem_of_filter. by destruct Hin. }
  destruct (putIfAbsent_miss_cache c1 key val hint Hwfc1 Hc1)
    as (c2 & rest & Hp & Hi & Hrec & Hv & Hc2).
  assert (wf c2) as Hwfc2.
  { apply (reachable_wf hash), (reachable_step hash (Insert key val hint) c1);
      [|done].
    by apply (reachable_step hash (Evict key hint) c). }
  assert (bucketIndex hash key hint c2 = bucketIndex hash key hint c1) as Hsame.
  { unfold insert in Hi. destruct (bucket_at _ c1); simplify_eq/=.
    destruct (Bucket.insert key val _); simplify_eq/=. done. }
  exists c1, c2, rest. split; [done|]. split; [done|]. split; [exact Hrec|].
  rewrite <- Hsame in Hrec, Hv.
  destruct (get_at_head c2 key hint rest Hwfc2 Hrec) as (v & Hv' & Hg).
  rewrite Hv in Hv'. by injection Hv' as <-.
Qed.

(** ** Calls and the buckets they are not routed to *)

Lemma insert_shape c key val hint c' :
  insert hash key val hint c = Some c' →
  ∃ b', c' = set_bucket (bucketIndex hash key hint c) b' c.
Proof.
  unfold insert. intros Hop.
  destruct (bucket_at (bucketIndex hash key hint c) c) as [b|]; simplify_eq/=.
  destruct (Bucket.insert key val b) as [b'|]; simplify_eq/=. by exists b'.
Qed.

Lemma get_shape c key hint r c' :
  get hash key hint c = Some (r, c') →
  ∃ b', c' = set_bucket (bucketIndex hash key hint c) b' c.
Proof.
  unfold get. intros Hop.
  destruct (bucket_at (bucketIndex hash key hint c) c) as [b|]; simplify_eq/=.
  destruct (Bucket.get key b) as [[r' b']|]; simplify_eq/=. by exists b'.
Qed.

Lemma putIfAbsent_shape c key val hint r c' :
  putIfAbsent hash key val hint c = Some (r, c') →
  ∃ b', c' = set_bucket (bucketIndex hash key hint c) b' c.
Proof.
  unfold putIfAbsent. intros Hop.
  destruct (bucket_at (bucketIndex hash key hint c) c) as [b|]; simplify_eq/=.
  destruct (Bucket.putIfAbsent key val b) as [[r' b']|]; simplify_eq/=.
  by exists b'.
Qed.

Lemma evict_shape c key hint c' :
  evict hash key hint c = Some c' →
  ∃ b', c' = set_bucket (bucketIndex hash key hint c) b' c.
Proof.
  unfold evict. intros Hop.
  destruct (bucket_at (bucketIndex hash key hint c) c) as [b|]; simplify_eq/=.
  destruct (Bucket.evict key b) as [b'|]; simplify_eq/=. by exists b'.
Qed.

(** X9: [insert], [get], [putIfAbsent] and [evict] work on the bucket the
    key and hint are routed to and on no other: every other bucket is
    afterwards what it was, and so is the routing of every key and hint. *)
Theorem calls_touch_one_bucket c key val hint i :
  0 ≤ i → i ≠ bucketIndex hash key hint c →
  (∀ c', insert hash key val hint c = Some c' →
     bucket_at i c' = bucket_at i c ∧
     ∀ k h, bucketIndex hash k h c' = bucketIndex hash k h c) ∧
  (∀ r c', get hash key hint c = Some (r, c') →
     bucket_at i c' = bucket_at i c ∧
     ∀ k h, bucketIndex hash k h c' = bucketIndex hash k h c) ∧
  (∀ r c', putIfAbsent hash key val hint c = Some (r, c') →
     bucket_at i c' = bucket_at i c ∧
     ∀ k h, bucketIndex hash k h c' = bucketIndex hash k h c) ∧
  (∀ c', evict hash key hint c = Some c' →
     bucket_at i c' = bucket_at i c ∧
     ∀ k h, bucketIndex hash k h c' = bucketIndex hash k h c).
Proof.
  intros Hi Hne. pose proof (bucketIndex_nonneg c key hint) as Hpos.
  assert (∀ b', bucket_at i (set_bucket (bucketIndex hash key hint c) b' c)
                = bucket_at i c) as Hset.
  { intros b'. by apply bucket_at_set_ne. }
  split; [|split; [|split]].
  - intros c' [b' ->]%insert_shape. by split.
  - intros r c' [b' ->]%get_shape. by split.
  - intros r c' [b' ->]%putIfAbsent_shape. by split.
  - intros c' [b' ->]%evict_shape. by split.
Qed.

(** X10: a key inserted under a hint is found under that hint, and the
    insert is invisible under any key and hint routed to another bucket:
    [contains] there answers what it answered before. *)
Theorem insert_then_contains c key val hint :
  reachable hash c →
  ∃ c', insert hash key val hint c = Some c' ∧
    contains hash key hint c' = Some true ∧
    ∀ k h, bucketIndex hash k h c ≠ bucketIndex hash key hint c →
           contains hash k h c' = contains hash k h c.
Proof.
  intros Hwf%reachable_wf.
  destruct (bucket_at_index hash c key hint Hwf) as (b & Hb & Hbwf).
  destruct (bucket_insert_kept b key val Hbwf) as (b' & Hi & Hbwf' & _).
  assert (key ∈ LRU.keys (Bucket.lru_ b')) as Hin.
  { unfold Bucket.insert in Hi.
    destruct (decide (key ∈ LRU.keys (Bucket.lru_ b))) as [Hk|Hk].
    - rewrite insert_present in Hi by (done || apply Hbwf). by simplify_eq/=.
    - destruct (insert_absent _ key val Hbwf Hk) as (l' & Hl' & _ & _ & Hkeys & _).
      rewrite Hl' in Hi. simplify_eq/=. rewrite Hkeys. by left. }
  exists (set_bucket (bucketIndex hash key hint c) b' c).
  split; [by unfold insert; rewrite Hb; simpl; rewrite Hi|].
  split.
  - rewrite (contains_set c _ b b' key hint eq_refl Hb) by apply Hbwf'.
    by rewrite bool_decide_eq_true_2.
  - intros k h Hne. unfold contains.
    change (bucketIndex hash k h (set_bucket _ b' c))
      with (bucketIndex hash k h c).
    rewrite bucket_at_set_ne; [done|apply bucketIndex_nonneg..|done].
Qed.

(** ** The representation of a shard *)

(** X11: in every reachable cache the list and the map of every shard
    agree.  The nodes of the list are distinct and so are its keys; the
    iterator the map stores for a key is a node of the list and holds that
    key, and every node is stored for its key; [size()] is the length of
    the list, [empty()] says that the list is empty, and the capacity is
    positive. *)
Theorem shards_linked c :
  reachable hash c →
  Forall (λ b,
    let l := Bucket.lru_ b in
    NoDup (LRU.list_ l).*1 ∧ NoDup (LRU.keys l) ∧
    (∀ j k, (j, k) ∈ LRU.list_ l ↔ ∃ v, LRU.map_ l !! k = Some (v, j)) ∧
    LRU.size l = Z.of_nat (length (LRU.keys l)) ∧
    LRU.empty l = bool_decide (LRU.keys l = []) ∧
    0 < LRU.capacity l) (buckets_ c).
Proof.
  intros Hwf%reachable_wf. eapply Forall_impl; [apply Hwf|].
  intros b [Hl Hsize Hcap]. simpl.
  split; [apply Hl|]. split; [apply Hl|]. split; [apply Hl|].
  pose proof (linked_size _ Hl) as Hlen. split; [done|]. split; [|done].
  unfold LRU.empty. apply bool_decide_ext.
  rewrite <- map_size_empty_iff. unfold LRU.size in Hlen.
  split.
  - intros Hz. rewrite Hz in Hlen. apply nil_length_inv. lia.
  - intros Hnil. rewrite Hnil in Hlen. simpl in Hlen. lia.
Qed.

(** ** get *)

Lemma promote_permutation (ks : list K) key :
  NoDup ks → key ∈ ks → key :: filter (λ x, x ≠ key) ks ≡ₚ ks.
Proof.
  induction ks as [|x ks IH]; intros Hnd Hin; [by apply elem_of_nil in Hin|].
  apply NoDup_cons in Hnd as [Hx Hnd].
  destruct (decide (x = key)) as [->|Hne].
  - rewrite filter_cons_False by naive_solver.
    rewrite filter_all; [done|]. by intros y Hy ->.
  - apply elem_of_cons in Hin as [?|Hin]; [done|].
    rewrite filter_cons_True by done.
    rewrite Permutation_swap. by rewrite IH.
Qed.

(** X12: [get] never adds or drops a key.  It is defined on every
    reachable cache; afterwards every shard holds the keys it held, in some
    order, with the values they had, and the sizes and capacities of the
    shards are unchanged. *)
Theorem get_keeps_keys c key hint :
  reachable hash c →
  ∃ r c', get hash key hint c = Some (r, c') ∧
    sizes c' = sizes c ∧ capacities c' = capacities c ∧
    (∀ i ks, 0 ≤ i → recency i c = Some ks →
       ∃ ks', recency i c' = Some ks' ∧ ks' ≡ₚ ks) ∧
    (∀ i k, 0 ≤ i → stored k i c' = stored k i c).
Proof.
  intros Hwf%reachable_wf.
  destruct (bucket_at_index hash c key hint Hwf) as (b & Hb & Hbwf).
  pose proof (contains_at hash _ _ _ _ Hb (LRU.wf_linked _ Hbwf)) as Hc.
  destruct (decide (key ∈ LRU.keys (Bucket.lru_ b))) as [Hk|Hk].
  2:{ rewrite bool_decide_eq_false_2 in Hc by done.
      rewrite (get_miss_cache hash c key hint Hwf Hc).
      eexists _, c. split; [done|]. split; [done|]. split; [done|].
      split; [|done]. intros i ks _ Hks. by exists ks. }
  destruct (bucket_get_hit b key Hbwf Hk)
    as (v & l' & Hv & Hg & Hwf' & Hcap & Hkeys & Hvals).
  pose proof (promote_permutation _ key
    (LRU.linked_keys _ (LRU.wf_linked _ Hbwf)) Hk) as Hperm.
  fold (LRU.keys (Bucket.lru_ b)) in Hperm. rewrite <- Hkeys in Hperm.
  exists (OfValue v), (set_bucket (bucketIndex hash key hint c) (Bucket.mk l') c).
  split; [by unfold get; rewrite Hb; simpl; rewrite Hg|].
  split; [|split; [|split]].
  - unfold sizes, set_bucket. simpl. unfold bucket_at in Hb.
    rewrite list_fmap_insert. apply list_insert_id.
    rewrite list_lookup_fmap, Hb. simpl. f_equal.
    rewrite (linked_size _ (LRU.wf_linked _ Hwf')),
      (linked_size _ (LRU.wf_linked _ Hbwf)).
    by rewrite Hperm.
  - by eapply set_bucket_wf.
  - intros i ks Hi Hks. destruct (decide (i = bucketIndex hash key hint c)) as [->|Hne].
    + rewrite (recency_set _ _ _ _ Hb). simpl.
      unfold recency in Hks. rewrite Hb in Hks. injection Hks as <-.
      by eexists.
    + exists ks. split; [|done]. unfold recency.
      rewrite bucket_at_set_ne; [done|apply bucketIndex_nonneg|done..].
  - intros i k Hi. destruct (decide (i = bucketIndex hash key hint c)) as [->|Hne].
    + rewrite (stored_set _ _ _ _ _ Hb). simpl. unfold stored.
      rewrite Hb. simpl. apply Hvals.
    + unfold stored.
      rewrite bucket_at_set_ne; [done|apply bucketIndex_nonneg|done..].
Qed.

(** X13: a second [get] of the same key is a pure read: after a [get] that
    found the key, the key is at the head of its shard, and the next [get]
    returns the same value and leaves the cache exactly as it is. *)
Theorem get_twice c key hint :
  reachable hash c →
  contains hash key hint c = Some true →
  ∃ v c1, get hash key hint c = Some (OfValue v, c1) ∧
    get hash key hint c1 = Some (OfValue v, c1).
Proof.
  intros Hr Hc. pose proof (reachable_wf hash c Hr) as Hwf.
  destruct (get_hit_cache hash c key hint Hwf Hc)
    as (v & c1 & ks & Hv & _ & Hg & Hrec & Hvals & _).
  exists v, c1. split; [done|].
  assert (wf c1) as Hwf1.
  { apply (reachable_wf hash), (reachable_step hash (Get key hint) c); [done|].
    simpl. by rewrite Hg. }
  destruct (get_shape c key hint _ _ Hg) as [b' ->].
  destruct (get_at_head _ key hint _ Hwf1 Hrec) as (w & Hw & Hg1).
  change (bucketIndex hash key hint (set_bucket _ b' c))
    with (bucketIndex hash key hint c) in Hw.
  rewrite Hvals, Hv in Hw. by injection Hw as <-.
Qed.

(** X14: in a shard of capacity at least 2 a key that was just read
    survives the next insert: after [get(k)] found the key, inserting a key
    that is new to the same shard leaves [k] contained with its value,
    however full the shard is. *)
Theorem get_protects c key hint key' val' hint' cap :
  reachable hash c →
  contains hash key hint c = Some true →
  bucketIndex hash key' hint' c = bucketIndex hash key hint c →
  contains hash key' hint' c = Some false →
  capacities c !! Z.to_nat (bucketIndex hash key hint c) = Some cap →
  2 ≤ cap →
  ∃ v c1 c2, get hash key hint c = Some (OfValue v, c1) ∧
    insert hash key' val' hint' c1 = Some c2 ∧
    contains hash key hint c2 = Some true ∧
    stored key (bucketIndex hash key hint c) c2 = Some v.
Proof.
  intros Hr Hc Hroute Hc' Hcap Hcap2. pose proof (reachable_wf hash c Hr) as Hwf.
  destruct (bucket_at_index hash c key hint Hwf) as (b & Hb & Hbwf).
  pose proof (contains_true hash _ _ _ _ Hb (LRU.wf_linked _ Hbwf) Hc) as Hk.
  set (i := bucketIndex hash key hint c) in *.
  assert (key' ∉ LRU.keys (Bucket.lru_ b)) as Hk'.
  { rewrite <- Hroute in Hb.
    apply (contains_false hash c key' hint' b Hb (LRU.wf_linked _ Hbwf) Hc'). }
  assert (key ≠ key') as Hne by (by intros ->).
  unfold capacities in Hcap. unfold bucket_at in Hb.
  rewrite list_lookup_fmap, Hb in Hcap. injection Hcap as Hcap.
  unfold LRU.capacity in Hcap. fold (bucket_at i c) in Hb.
  destruct (bucket_get_hit b key Hbwf Hk)
    as (v & l1 & Hv & Hg & Hwf1 & Hcap1 & Hkeys1 & Hvals1).
  assert (key' ∉ LRU.keys l1) as Hk1.
  { rewrite Hkeys1. apply not_elem_of_cons. split; [done|].
    intros Hin%list_elem_of_filter. by destruct Hin. }
  destruct (insert_absent l1 key' val' Hwf1 Hk1)
    as (l2 & Hi & Hwf2 & _ & Hkeys2 & _ & Hvals2).
  assert (key ∈ LRU.keys l2) as Hk2.
  { rewrite Hkeys2, Hkeys1, Hcap1, Hcap. right.
    replace (Z.to_nat cap - 1)%nat with (S (Z.to_nat cap - 2)) by lia.
    simpl. by left. }
  set (c1 := set_bucket i (Bucket.mk l1) c).
  assert (bucket_at i c1 = Some (Bucket.mk l1)) as Hb1.
  { by apply (bucket_at_set c i b). }
  exists v, c1, (set_bucket i (Bucket.mk l2) c1).
  split; [by unfold get; fold i; rewrite Hb; simpl; rewrite Hg|].
  split.
  { assert (bucketIndex hash key' hint' c1 = i) as Hi1 by exact Hroute.
    rewrite <- Hi1 in Hb1 |- *.
    apply (insert_at hash c1 key' val' hint' _ l2 Hb1 Hi). }
  split.
  - rewrite (contains_set c1 i _ _ key hint eq_refl Hb1) by apply Hwf2.
    simpl. by rewrite bool_decide_eq_true_2.
  - rewrite (stored_set _ _ _ _ _ Hb1). simpl.
    rewrite Hvals2 by done. by rewrite Hvals1.
Qed.

(** X16: a shard of capacity 1 holds the last inserted key only: inserting
    a key that is not in it leaves that key as the single entry, whatever
    was there before. *)
Theorem capacity_one_shard c key val hint :
  reachable hash c →
  contains hash key hint c = Some false →
  capacities c !! Z.to_nat (bucketIndex hash key hint c) = Some 1 →
  ∃ c', insert hash key val hint c = Some c' ∧
    recency (bucketIndex hash key hint c) c' = Some [key] ∧
    sizes c' !! Z.to_nat (bucketIndex hash key hint c) = Some 1.
Proof.
  intros Hwf%reachable_wf Hc Hcap.
  destruct (insert_absent_cache c key val hint Hwf Hc)
    as (b & l' & Hb & Hbwf & Hk & Hins & _ & Hwf' & _ & Hkeys & _).
  unfold capacities in Hcap. unfold bucket_at in Hb.
  rewrite list_lookup_fmap, Hb in Hcap. injection Hcap as Hcap.
  unfold LRU.capacity in Hcap.
  fold (bucket_at (bucketIndex hash key hint c) c) in Hb.
  rewrite Hcap in Hkeys. change (Z.to_nat 1 - 1)%nat with 0%nat in Hkeys.
  change (take 0 _) with (@nil K) in Hkeys.
  eexists. split; [done|].
  rewrite (recency_set _ _ _ _ Hb). simpl. split; [by rewrite Hkeys|].
  unfold sizes, set_bucket. simpl. rewrite list_lookup_fmap.
  rewrite list_lookup_insert_eq by (by eapply lookup_lt_Some). simpl.
  by rewrite (linked_size _ (LRU.wf_linked _ Hwf')), Hkeys.
Qed.

(** ** clear, again *)

Lemma step_fields o c c' :
  wf c → step hash o c = Some c' →
  bucketsNum_ c' = bucketsNum_ c ∧ bucketsExp_ c' = bucketsExp_ c.
Proof.
  intros Hwf Hs.
  destruct o as [key val hint|key hint|key val hint|key hint|key hint|];
    simpl in Hs.
  - by apply insert_shape in Hs as [b' ->].
  - destruct (get hash key hint c) as [[r c1]|] eqn:Hg; simplify_eq/=.
    by apply get_shape in Hg as [b' ->].
  - destruct (putIfAbsent hash key val hint c) as [[r c1]|] eqn:Hg;
      simplify_eq/=.
    by apply putIfAbsent_shape in Hg as [b' ->].
  - by apply evict_shape in Hs as [b' ->].
  - destruct (contains hash key hint c); by simplify_eq/=.
  - destruct (clear_buckets c Hwf) as (c1 & Hc1 & Hnum & Hexp & _).
    by simplify_eq.
Qed.

Lemma run_fields ops c c' :
  wf c → run hash ops c = Some c' →
  bucketsNum_ c' = bucketsNum_ c ∧ bucketsExp_ c' = bucketsExp_ c.
Proof.
  revert c. induction ops as [|o ops IH]; simpl; intros c Hwf Hrun.
  - by simplify_eq.
  - destruct (step_kept hash o c Hwf) as (c1 & Hs & Hwf1 & _).
    rewrite Hs in Hrun. simpl in Hrun.
    destruct (step_fields o c c1 Hwf Hs) as [Hn He].
    destruct (IH c1 Hwf1 Hrun) as [Hn' He']. split; congruence.
Qed.

(** X17: [clear()] brings a cache back to the state the constructor built:
    whatever calls were made on a constructed cache, clearing it gives
    exactly the constructed cache again, empty buckets with their
    capacities. *)
Theorem clear_restores capacity bucketsExp c0 ops c :
  args_ok capacity bucketsExp →
  construct capacity bucketsExp = Some c0 →
  run hash ops c0 = Some c →
  clear c = Some c0.
Proof.
  intros Hargs Hc0 Hrun. pose proof (construct_wf _ _ _ Hargs Hc0) as Hwf0.
  destruct (run_kept hash ops c0 Hwf0) as (c1 & Hrun1 & Hwf & Hcaps).
  rewrite Hrun in Hrun1. injection Hrun1 as <-.
  destruct (run_fields ops c0 c Hwf0 Hrun) as [Hnum Hexp].
  destruct (clear_buckets c Hwf) as (c' & Hc' & Hnum' & Hexp' & Hbs).
  rewrite Hc'. f_equal.
  assert (buckets_ c0 = Bucket.create <$> capacities c0) as Hfresh.
  { pose proof Hargs as [_ He]. pose proof (pow2_bounds _ He) as Hp.
    destruct (decide (2 ^ bucketsExp < capacity)) as [Hlt|Hge].
    2:{ rewrite construct_refused in Hc0 by (done || lia). done. }
    rewrite construct_value in Hc0 by done. injection Hc0 as <-.
    unfold capacities. simpl.
    rewrite !fmap_app, !fmap_replicate. done. }
  assert (buckets_ c' = buckets_ c0) as Hsame.
  { rewrite Hbs, Hfresh, <- Hcaps. unfold capacities.
    rewrite <- list_fmap_compose. done. }
  destruct c', c0. simpl in *. congruence.
Qed.
End further.

(** ** An LRU of capacity 0 *)

(** X15: the first [insert] into a new [LRU] is defined exactly when the
    capacity is positive.  With capacity 0 the new [LRU] counts as full and
    [insert] calls the private [evict()] on an empty list, decrementing
    [begin()]; with a positive capacity the insert stores the key. *)
Theorem insert_into_new_lru {K : Type} `{Countable K} {V : Type}
    (key : K) (value : V) (capacity : Z) :
  (LRU.insert key value (LRU.create capacity) = None ↔ capacity ≤ 0)%Z ∧
  ((0 < capacity)%Z →
     ∃ l, LRU.insert key value (LRU.create capacity) = Some l ∧
       LRU.keys l = [key] ∧ LRU.value key l = Some value).
Proof.
  assert (LRU.size (LRU.create (K:=K) (V:=V) capacity) = 0%Z) as Hsize.
  { unfold LRU.size. simpl. by rewrite map_size_empty. }
  split.
  - unfold LRU.insert. simpl. rewrite lookup_empty, Hsize.
    case_bool_decide as Hfull; simpl; split; (done || lia).
  - intros Hpos. destruct (insert_absent (LRU.create capacity) key value)
      as (l & Hi & _ & _ & Hkeys & Hv & _).
    + by apply create_wf.
    + apply not_elem_of_nil.
    + exists l. split; [done|]. split; [|done].
      rewrite Hkeys. f_equal. apply take_nil.
Qed.

(** ** The claims on the small instance *)

Section instance.
Import ConcurrentLRUCache.
Local Open Scope Z_scope.

Lemma args_8_1 : args_ok 8 1.
Proof. unfold args_ok. lia. Defined.

Lemma fresh_constructed : construct 8 1 = Some Example.fresh.
Proof. reflexivity. Defined.

Lemma fresh_reachable : reachable Example.hash Example.fresh.
Proof. exact (reachable_construct _ 8 1 _ args_8_1 fresh_constructed). Defined.

Lemma one_reachable : reachable Example.hash Example.one.
Proof.
  apply (reachable_step _ (Insert 7 70 0) Example.fresh); [exact fresh_reachable|].
  vm_compute. reflexivity.
Defined.

(** The model runs: the constructor, the routing and the recency scenario
    of the specification, evaluated. *)

Example construct_10_2 :
  capacities <$> construct (K:=Z) (V:=Z) 10 2 = Some [2; 2; 2; 4].
Proof. reflexivity. Qed.

Example construct_4_2 : construct (K:=Z) (V:=Z) 4 2 = None.
Proof. reflexivity. Qed.

Example bucketIndex_hint_5 : bucketIndex Example.hash 7 5 Example.fresh = 1.
Proof. reflexivity. Qed.

Example bucketIndex_hash_6 : bucketIndex Example.hash 6 (-1) Example.fresh = 0.
Proof. reflexivity. Qed.

Example scenario_runs :
  (c ← run Example.hash
         [Insert 1 10 0; Insert 2 20 0; Insert 3 30 0; Insert 4 40 0;
          Get 1 0; Insert 5 50 0] Example.fresh;
   b ← contains Example.hash 2 0 c;
   ks ← recency 0 c;
   Some (ks, b, sizes c))
  = Some ([5; 1; 4; 3], false, [4; 0]).
Proof. vm_compute. reflexivity. Qed.

Example overwrite_runs :
  run Example.hash [Insert 7 71 0; Insert 7 72 0] Example.one = Some Example.one ∧
  get Example.hash 7 0 Example.one = Some (OfValue 70, Example.one).
Proof. split; vm_compute; reflexivity. Qed.

Lemma five_distinct : NoDup [1; 2; 3; 4; 5].
Proof.
  rewrite !NoDup_cons, !not_elem_of_cons.
  repeat split; try lia; try apply not_elem_of_nil. apply NoDup_nil_2.
Defined.

Lemma recency_scenario_witness :
  reachable Example.hash Example.one ∧
  (0 ≤ 0 ∨ Forall (λ k, bucketIndex Example.hash k 0 Example.one
                         = bucketIndex Example.hash 1 0 Example.one)
             [2; 3; 4; 5]) ∧
  capacities Example.one
    !! Z.to_nat (bucketIndex Example.hash 1 0 Example.one) = Some 4 ∧
  recency (bucketIndex Example.hash 1 0 Example.one) Example.one = Some [7] ∧
  (1 ∉ [7]) ∧ (2 ∉ [7]) ∧ (3 ∉ [7]) ∧ (4 ∉ [7]) ∧
  NoDup [1; 2; 3; 4; 5] ∧
  ∃ c5 c6,
    run Example.hash [Insert 1 10 0; Insert 2 20 0; Insert 3 30 0;
                      Insert 4 40 0; Get 1 0] Example.one = Some c5 ∧
    recency (bucketIndex Example.hash 1 0 Example.one) c5 = Some [1; 4; 3; 2] ∧
    insert Example.hash 5 50 0 c5 = Some c6 ∧
    run Example.hash [Insert 1 10 0; Insert 2 20 0; Insert 3 30 0;
                      Insert 4 40 0; Get 1 0; Insert 5 50 0]
      Example.one = Some c6 ∧
    recency (bucketIndex Example.hash 1 0 Example.one) c6 = Some [5; 1; 4; 3] ∧
    contains Example.hash 1 0 c6 = Some true ∧
    contains Example.hash 3 0 c6 = Some true ∧
    contains Example.hash 4 0 c6 = Some true ∧
    contains Example.hash 5 0 c6 = Some true ∧
    contains Example.hash 2 0 c6 = Some false.
Proof.
  assert (0 ≤ 0 ∨ Forall (λ k, bucketIndex Example.hash k 0 Example.one
                                = bucketIndex Example.hash 1 0 Example.one)
                    [2; 3; 4; 5]) as H0 by (left; lia).
  assert (capacities Example.one
    !! Z.to_nat (bucketIndex Example.hash 1 0 Example.one) = Some 4)
    as Hcap by reflexivity.
  assert (recency (bucketIndex Example.hash 1 0 Example.one) Example.one
    = Some [7]) as Hks by reflexivity.
  assert (∀ x, x ≠ 7 → x ∉ [7]) as Hne.
  { intros x Hx Hin. apply Hx. by apply list_elem_of_singleton. }
  assert (1 ∉ [7]) as H1 by (apply Hne; lia).
  assert (2 ∉ [7]) as H2 by (apply Hne; lia).
  assert (3 ∉ [7]) as H3 by (apply Hne; lia).
  assert (4 ∉ [7]) as H4 by (apply Hne; lia).
  repeat (split; [assumption || exact one_reachable || exact five_distinct|]).
  exact (recency_scenario Example.hash Example.one 0 [7] 1 2 3 4 5 10 20 30 40 50
           one_reachable H0 Hcap Hks H1 H2 H3 H4 five_distinct).
Defined.

Lemma shard_capacities_witness :
  args_ok 10 2 ∧ 2 ^ 2 < 10 ∧
  ∃ c, construct (K:=Z) (V:=Z) 10 2 = Some c ∧
    bucketsNum_ c = 2 ^ 2 ∧
    Z.of_nat (length (buckets_ c)) = 2 ^ 2 ∧
    capacities c = replicate (Z.to_nat (2 ^ 2 - 1)) (10 / 2 ^ 2)
                   ++ [10 / 2 ^ 2 + 10 mod 2 ^ 2] ∧
    total (capacities c) = 10.
Proof.
  assert (args_ok 10 2) as Hargs by (unfold args_ok; lia).
  assert (2 ^ 2 < 10) as Hlt by lia.
  split; [exact Hargs|]. split; [exact Hlt|].
  exact (shard_capacities 10 2 Hargs Hlt).
Defined.

Lemma construct_fails_iff_witness :
  args_ok 4 2 ∧
  (construct (K:=Z) (V:=Z) 4 2 = None ↔ 4 ≤ 2 ^ 2 ∨ 2 ^ 2 = 0) ∧
  (2 ^ 2 < 4 ∧ 0 < 2 ^ 2 → is_Some (construct (K:=Z) (V:=Z) 4 2)).
Proof.
  assert (args_ok 4 2) as Hargs by (unfold args_ok; lia).
  split; [exact Hargs|].
  exact (construct_fails_iff 4 2 Hargs).
Defined.

Lemma bucketIndex_spec_witness :
  reachable Example.hash Example.fresh ∧
  bucketsNum_ Example.fresh = 2 ^ bucketsExp_ Example.fresh ∧
  (0 ≤ 5 → bucketIndex Example.hash 7 5 Example.fresh
           = Z.land 5 (bucketsNum_ Example.fresh - 1)) ∧
  (5 < 0 → bucketIndex Example.hash 7 5 Example.fresh
           = Z.land (Example.hash 7) (bucketsNum_ Example.fresh - 1)) ∧
  0 ≤ bucketIndex Example.hash 7 5 Example.fresh < bucketsNum_ Example.fresh ∧
  is_Some (bucket_at (bucketIndex Example.hash 7 5 Example.fresh) Example.fresh).
Proof.
  split; [exact fresh_reachable|].
  exact (bucketIndex_spec Example.hash Example.fresh 7 5 fresh_reachable).
Defined.

Lemma insert_no_overwrite_witness :
  reachable Example.hash Example.fresh ∧
  ∃ c1 w c2,
    insert Example.hash 7 70 0 Example.fresh = Some c1 ∧
    insert Example.hash 7 71 0 c1 = Some c1 ∧
    get Example.hash 7 0 c1 = Some (OfValue w, c2) ∧
    (contains Example.hash 7 0 Example.fresh = Some false → w = 70 ∧ c2 = c1) ∧
    (contains Example.hash 7 0 Example.fresh = Some true →
       c1 = Example.fresh ∧
       stored 7 (bucketIndex Example.hash 7 0 Example.fresh) Example.fresh
         = Some w).
Proof.
  split; [exact fresh_reachable|].
  exact (insert_no_overwrite Example.hash Example.fresh 7 70 71 0 fresh_reachable).
Defined.

Lemma capacity_bound_witness :
  args_ok 8 1 ∧ construct 8 1 = Some Example.fresh ∧
  ∃ c, run Example.hash
         [Insert 1 10 0; Insert 2 20 (-1); Get 1 0; PutIfAbsent 3 30 1;
          Evict 2 (-1); Clear] Example.fresh = Some c ∧
    capacities c = capacities Example.fresh ∧
    Forall2 Z.le (sizes c) (capacities c) ∧
    total (sizes c) ≤ 8.
Proof.
  split; [exact args_8_1|]. split; [exact fresh_constructed|].
  exact (capacity_bound Example.hash 8 1 Example.fresh _ args_8_1 fresh_constructed).
Defined.

Lemma get_spec_witness :
  reachable Example.hash Example.one ∧
  (contains Example.hash 7 0 Example.one = Some false →
     get Example.hash 7 0 Example.one = Some (OfStatus Error, Example.one)) ∧
  (contains Example.hash 7 0 Example.one = Some true →
     ∃ v c' ks,
       stored 7 (bucketIndex Example.hash 7 0 Example.one) Example.one = Some v ∧
       recency (bucketIndex Example.hash 7 0 Example.one) Example.one = Some ks ∧
       get Example.hash 7 0 Example.one = Some (OfValue v, c') ∧
       recency (bucketIndex Example.hash 7 0 Example.one) c'
         = Some (7 :: filter (λ x, x ≠ 7) ks) ∧
       (∀ k, stored k (bucketIndex Example.hash 7 0 Example.one) c'
             = stored k (bucketIndex Example.hash 7 0 Example.one) Example.one) ∧
       (∀ i, 0 ≤ i → i ≠ bucketIndex Example.hash 7 0 Example.one →
             bucket_at i c' = bucket_at i Example.one)).
Proof.
  split; [exact one_reachable|].
  exact (get_spec Example.hash Example.one 7 0 one_reachable).
Defined.

Lemma evict_idempotent_witness :
  reachable Example.hash Example.one ∧
  (contains Example.hash 7 0 Example.one = Some false →
     evict Example.hash 7 0 Example.one = Some Example.one) ∧
  (∃ c1, evict Example.hash 7 0 Example.one = Some c1 ∧
     evict Example.hash 7 0 c1 = Some c1 ∧
     contains Example.hash 7 0 c1 = Some false).
Proof.
  split; [exact one_reachable|].
  exact (evict_idempotent Example.hash Example.one 7 0 one_reachable).
Defined.

Lemma contains_spec_witness :
  reachable Example.hash Example.one ∧
  ∃ ks, recency (bucketIndex Example.hash 7 0 Example.one) Example.one = Some ks ∧
    contains Example.hash 7 0 Example.one = Some (bool_decide (7 ∈ ks)) ∧
    (7 ∈ ks ↔ is_Some (stored 7 (bucketIndex Example.hash 7 0 Example.one)
                         Example.one)) ∧
    step Example.hash (Contains 7 0) Example.one = Some Example.one.
Proof.
  split; [exact one_reachable|].
  exact (contains_spec Example.hash Example.one 7 0 one_reachable).
Defined.

Lemma putIfAbsent_promotes_witness :
  reachable Example.hash Example.one ∧
  contains Example.hash 7 0 Example.one = Some true ∧
  putIfAbsent Example.hash 7 99 0 Example.one = get Example.hash 7 0 Example.one ∧
  ∃ v c' ks,
    stored 7 (bucketIndex Example.hash 7 0 Example.one) Example.one = Some v ∧
    recency (bucketIndex Example.hash 7 0 Example.one) Example.one = Some ks ∧
    putIfAbsent Example.hash 7 99 0 Example.one = Some (OfValue v, c') ∧
    recency (bucketIndex Example.hash 7 0 Example.one) c'
      = Some (7 :: filter (λ x, x ≠ 7) ks) ∧
    stored 7 (bucketIndex Example.hash 7 0 Example.one) c' = Some v.
Proof.
  assert (contains Example.hash 7 0 Example.one = Some true) as Hc
    by (vm_compute; reflexivity).
  split; [exact one_reachable|]. split; [exact Hc|].
  exact (putIfAbsent_promotes Example.hash Example.one 7 99 0 one_reachable Hc).
Defined.
End instance.

(** ** The further properties on the small instances *)

Section instance2.
Import ConcurrentLRUCache.
Local Open Scope Z_scope.

Lemma full_reachable : reachable Example.hash Example2.full.
Proof.
  apply (run_reachable Example.hash Example2.fill_ops Example.fresh);
    [exact fresh_reachable|].
  vm_compute. reflexivity.
Defined.

Lemma args_3_1 : args_ok 3 1.
Proof. unfold args_ok. lia. Defined.

Lemma small_reachable : reachable Example.hash Example2.small.
Proof.
  apply (reachable_construct _ 3 1 _ args_3_1). reflexivity.
Defined.

Example full_recency : recency 0 Example2.full = Some [4; 3; 2; 1].
Proof. vm_compute. reflexivity. Qed.

Example full_then_clear :
  (c ← clear Example2.full; Some (sizes c, capacities c)) = Some ([0; 0], [4; 4]).
Proof. vm_compute. reflexivity. Qed.

Lemma clear_empties_witness :
  reachable Example.hash Example2.full ∧
  ∃ c', clear Example2.full = Some c' ∧
    capacities c' = capacities Example2.full ∧
    sizes c' = replicate (length (buckets_ Example2.full)) 0 ∧
    ∀ key hint,
      contains Example.hash key hint c' = Some false ∧
      get Example.hash key hint c' = Some (OfStatus Error, c').
Proof.
  split; [exact full_reachable|].
  exact (clear_empties Example.hash Example2.full full_reachable).
Defined.

Lemma construct_empty_witness :
  args_ok 8 1 ∧ construct 8 1 = Some Example.fresh ∧
  Z.of_nat (length (buckets_ Example.fresh)) = 2 ^ 1 ∧
  sizes Example.fresh = replicate (length (buckets_ Example.fresh)) 0 ∧
  Forall (λ x, 1 ≤ x) (capacities Example.fresh) ∧
  ∀ key hint,
    contains Example.hash key hint Example.fresh = Some false ∧
    get Example.hash key hint Example.fresh
      = Some (OfStatus Error, Example.fresh).
Proof.
  split; [exact args_8_1|]. split; [exact fresh_constructed|].
  exact (construct_empty Example.hash 8 1 Example.fresh args_8_1 fresh_constructed).
Defined.

Lemma insert_with_room_witness :
  reachable Example.hash Example.one ∧
  contains Example.hash 8 0 Example.one = Some false ∧
  recency (bucketIndex Example.hash 8 0 Example.one) Example.one = Some [7] ∧
  capacities Example.one
    !! Z.to_nat (bucketIndex Example.hash 8 0 Example.one) = Some 4 ∧
  Z.of_nat (length [7]) < 4 ∧
  ∃ c', insert Example.hash 8 80 0 Example.one = Some c' ∧
    recency (bucketIndex Example.hash 8 0 Example.one) c' = Some [8; 7] ∧
    stored 8 (bucketIndex Example.hash 8 0 Example.one) c' = Some 80 ∧
    (∀ k, k ≠ 8 → stored k (bucketIndex Example.hash 8 0 Example.one) c'
                   = stored k (bucketIndex Example.hash 8 0 Example.one)
                       Example.one).
Proof.
  assert (contains Example.hash 8 0 Example.one = Some false) as Hc
    by (vm_compute; reflexivity).
  assert (recency (bucketIndex Example.hash 8 0 Example.one) Example.one
    = Some [7]) as Hks by reflexivity.
  assert (capacities Example.one
    !! Z.to_nat (bucketIndex Example.hash 8 0 Example.one) = Some 4)
    as Hcap by reflexivity.
  assert (Z.of_nat (length [7]) < 4) as Hlen by (simpl; lia).
  split; [exact one_reachable|]. split; [exact Hc|]. split; [exact Hks|].
  split; [exact Hcap|]. split; [exact Hlen|].
  exact (insert_with_room Example.hash Example.one 8 80 0 [7] 4
           one_reachable Hc Hks Hcap Hlen).
Defined.

Lemma insert_when_full_witness :
  reachable Example.hash Example2.full ∧
  contains Example.hash 5 0 Example2.full = Some false ∧
  recency (bucketIndex Example.hash 5 0 Example2.full) Example2.full
    = Some [4; 3; 2; 1] ∧
  capacities Example2.full
    !! Z.to_nat (bucketIndex Example.hash 5 0 Example2.full) = Some 4 ∧
  Z.of_nat (length [4; 3; 2; 1]) = 4 ∧
  ∃ c' ks' old, [4; 3; 2; 1] = ks' ++ [old] ∧
    insert Example.hash 5 50 0 Example2.full = Some c' ∧
    recency (bucketIndex Example.hash 5 0 Example2.full) c' = Some (5 :: ks') ∧
    stored 5 (bucketIndex Example.hash 5 0 Example2.full) c' = Some 50 ∧
    stored old (bucketIndex Example.hash 5 0 Example2.full) c' = None ∧
    (∀ k, k ≠ 5 → k ≠ old →
          stored k (bucketIndex Example.hash 5 0 Example2.full) c'
          = stored k (bucketIndex Example.hash 5 0 Example2.full) Example2.full).
Proof.
  assert (contains Example.hash 5 0 Example2.full = Some false) as Hc
    by (vm_compute; reflexivity).
  assert (recency (bucketIndex Example.hash 5 0 Example2.full) Example2.full
    = Some [4; 3; 2; 1]) as Hks by (vm_compute; reflexivity).
  assert (capacities Example2.full
    !! Z.to_nat (bucketIndex Example.hash 5 0 Example2.full) = Some 4)
    as Hcap by (vm_compute; reflexivity).
  assert (Z.of_nat (length [4; 3; 2; 1]) = 4) as Hlen by reflexivity.
  split; [exact full_reachable|]. split; [exact Hc|]. split; [exact Hks|].
  split; [exact Hcap|]. split; [exact Hlen|].
  exact (insert_when_full Example.hash Example2.full 5 50 0 [4; 3; 2; 1] 4
           full_reachable Hc Hks Hcap Hlen).
Defined.

Lemma putIfAbsent_inserts_witness :
  reachable Example.hash Example.fresh ∧
  contains Example.hash 7 0 Example.fresh = Some false ∧
  ∃ c', putIfAbsent Example.hash 7 70 0 Example.fresh
          = Some (OfStatus Inserted, c') ∧
    insert Example.hash 7 70 0 Example.fresh = Some c' ∧
    contains Example.hash 7 0 c' = Some true ∧
    stored 7 (bucketIndex Example.hash 7 0 Example.fresh) c' = Some 70.
Proof.
  assert (contains Example.hash 7 0 Example.fresh = Some false) as Hc
    by (vm_compute; reflexivity).
  split; [exact fresh_reachable|]. split; [exact Hc|].
  exact (putIfAbsent_inserts Example.hash Example.fresh 7 70 0 fresh_reachable Hc).
Defined.

Lemma putIfAbsent_twice_witness :
  reachable Example.hash Example.fresh ∧
  ∃ r c1 w,
    putIfAbsent Example.hash 7 70 0 Example.fresh = Some (r, c1) ∧
    putIfAbsent Example.hash 7 71 0 c1 = Some (OfValue w, c1) ∧
    (contains Example.hash 7 0 Example.fresh = Some false →
       r = OfStatus Inserted ∧ w = 70) ∧
    (contains Example.hash 7 0 Example.fresh = Some true →
       r = OfValue w ∧
       stored 7 (bucketIndex Example.hash 7 0 Example.fresh) Example.fresh
         = Some w).
Proof.
  split; [exact fresh_reachable|].
  exact (putIfAbsent_twice Example.hash Example.fresh 7 70 71 0 fresh_reachable).
Defined.

Lemma evict_removes_key_witness :
  reachable Example.hash Example2.full ∧
  ∃ c' ks,
    recency (bucketIndex Example.hash 3 0 Example2.full) Example2.full = Some ks ∧
    evict Example.hash 3 0 Example2.full = Some c' ∧
    recency (bucketIndex Example.hash 3 0 Example2.full) c'
      = Some (filter (λ x, x ≠ 3) ks) ∧
    contains Example.hash 3 0 c' = Some false ∧
    stored 3 (bucketIndex Example.hash 3 0 Example2.full) c' = None ∧
    (∀ k, k ≠ 3 → stored k (bucketIndex Example.hash 3 0 Example2.full) c'
                   = stored k (bucketIndex Example.hash 3 0 Example2.full)
                       Example2.full) ∧
    (∀ i, 0 ≤ i → i ≠ bucketIndex Example.hash 3 0 Example2.full →
          bucket_at i c' = bucket_at i Example2.full) ∧
    capacities c' = capacities Example2.full.
Proof.
  split; [exact full_reachable|].
  exact (evict_removes_key Example.hash Example2.full 3 0 full_reachable).
Defined.

Lemma evict_then_insert_witness :
  reachable Example.hash Example.one ∧
  ∃ c1 c2 rest,
    evict Example.hash 7 0 Example.one = Some c1 ∧
    insert Example.hash 7 71 0 c1 = Some c2 ∧
    recency (bucketIndex Example.hash 7 0 Example.one) c2 = Some (7 :: rest) ∧
    get Example.hash 7 0 c2 = Some (OfValue 71, c2).
Proof.
  split; [exact one_reachable|].
  exact (evict_then_insert Example.hash Example.one 7 71 0 one_reachable).
Defined.

Lemma calls_touch_one_bucket_witness :
  0 ≤ 1 ∧ 1 ≠ bucketIndex Example.hash 7 0 Example.one ∧
  (∀ c', insert Example.hash 7 71 0 Example.one = Some c' →
     bucket_at 1 c' = bucket_at 1 Example.one ∧
     ∀ k h, bucketIndex Example.hash k h c'
            = bucketIndex Example.hash k h Example.one) ∧
  (∀ r c', get Example.hash 7 0 Example.one = Some (r, c') →
     bucket_at 1 c' = bucket_at 1 Example.one ∧
     ∀ k h, bucketIndex Example.hash k h c'
            = bucketIndex Example.hash k h Example.one) ∧
  (∀ r c', putIfAbsent Example.hash 7 71 0 Example.one = Some (r, c') →
     bucket_at 1 c' = bucket_at 1 Example.one ∧
     ∀ k h, bucketIndex Example.hash k h c'
            = bucketIndex Example.hash k h Example.one) ∧
  (∀ c', evict Example.hash 7 0 Example.one = Some c' →
     bucket_at 1 c' = bucket_at 1 Example.one ∧
     ∀ k h, bucketIndex Example.hash k h c'
            = bucketIndex Example.hash k h Example.one).
Proof.
  assert (0 ≤ 1) as H0 by lia.
  assert (1 ≠ bucketIndex Example.hash 7 0 Example.one) as H1
    by (vm_compute; discriminate).
  split; [exact H0|]. split; [exact H1|].
  exact (calls_touch_one_bucket Example.hash Example.one 7 71 0 1 H0 H1).
Defined.

Lemma insert_then_contains_witness :
  reachable Example.hash Example.fresh ∧
  ∃ c', insert Example.hash 7 70 5 Example.fresh = Some c' ∧
    contains Example.hash 7 5 c' = Some true ∧
    ∀ k h, bucketIndex Example.hash k h Example.fresh
             ≠ bucketIndex Example.hash 7 5 Example.fresh →
           contains Example.hash k h c' = contains Example.hash k h Example.fresh.
Proof.
  split; [exact fresh_reachable|].
  exact (insert_then_contains Example.hash Example.fresh 7 70 5 fresh_reachable).
Defined.

Lemma shards_linked_witness :
  reachable Example.hash Example2.full ∧
  Forall (λ b,
    let l := Bucket.lru_ b in
    NoDup (LRU.list_ l).*1 ∧ NoDup (LRU.keys l) ∧
    (∀ j k, (j, k) ∈ LRU.list_ l ↔ ∃ v, LRU.map_ l !! k = Some (v, j)) ∧
    LRU.size l = Z.of_nat (length (LRU.keys l)) ∧
    LRU.empty l = bool_decide (LRU.keys l = []) ∧
    0 < LRU.capacity l) (buckets_ Example2.full).
Proof.
  split; [exact full_reachable|].
  exact (shards_linked Example.hash Example2.full full_reachable).
Defined.

Lemma get_keeps_keys_witness :
  reachable Example.hash Example2.full ∧
  ∃ r c', get Example.hash 2 0 Example2.full = Some (r, c') ∧
    sizes c' = sizes Example2.full ∧
    capacities c' = capacities Example2.full ∧
    (∀ i ks, 0 ≤ i → recency i Example2.full = Some ks →
       ∃ ks', recency i c' = Some ks' ∧ ks' ≡ₚ ks) ∧
    (∀ i k, 0 ≤ i → stored k i c' = stored k i Example2.full).
Proof.
  split; [exact full_reachable|].
  exact (get_keeps_keys Example.hash Example2.full 2 0 full_reachable).
Defined.

Lemma get_twice_witness :
  reachable Example.hash Example2.full ∧
  contains Example.hash 1 0 Example2.full = Some true ∧
  ∃ v c1, get Example.hash 1 0 Example2.full = Some (OfValue v, c1) ∧
    get Example.hash 1 0 c1 = Some (OfValue v, c1).
Proof.
  assert (contains Example.hash 1 0 Example2.full = Some true) as Hc
    by (vm_compute; reflexivity).
  split; [exact full_reachable|]. split; [exact Hc|].
  exact (get_twice Example.hash Example2.full 1 0 full_reachable Hc).
Defined.

Lemma get_protects_witness :
  reachable Example.hash Example2.full ∧
  contains Example.hash 1 0 Example2.full = Some true ∧
  bucketIndex Example.hash 5 0 Example2.full
    = bucketIndex Example.hash 1 0 Example2.full ∧
  contains Example.hash 5 0 Example2.full = Some false ∧
  capacities Example2.full
    !! Z.to_nat (bucketIndex Example.hash 1 0 Example2.full) = Some 4 ∧
  2 ≤ 4 ∧
  ∃ v c1 c2, get Example.hash 1 0 Example2.full = Some (OfValue v, c1) ∧
    insert Example.hash 5 50 0 c1 = Some c2 ∧
    contains Example.hash 1 0 c2 = Some true ∧
    stored 1 (bucketIndex Example.hash 1 0 Example2.full) c2 = Some v.
Proof.
  assert (contains Example.hash 1 0 Example2.full = Some true) as Hc
    by (vm_compute; reflexivity).
  assert (bucketIndex Example.hash 5 0 Example2.full
    = bucketIndex Example.hash 1 0 Example2.full) as Hroute by reflexivity.
  assert (contains Example.hash 5 0 Example2.full = Some false) as Hc'
    by (vm_compute; reflexivity).
  assert (capacities Example2.full
    !! Z.to_nat (bucketIndex Example.hash 1 0 Example2.full) = Some 4)
    as Hcap by (vm_compute; reflexivity).
  assert (2 ≤ 4) as H2 by lia.
  split; [exact full_reachable|]. split; [exact Hc|]. split; [exact Hroute|].
  split; [exact Hc'|]. split; [exact Hcap|]. split; [exact H2|].
  exact (get_protects Example.hash Example2.full 1 0 5 50 0 4
           full_reachable Hc Hroute Hc' Hcap H2).
Defined.

Lemma insert_into_new_lru_witness :
  (LRU.insert 7 70 (LRU.create (K:=Z) (V:=Z) 0) = None ↔ 0 ≤ 0) ∧
  (0 < 0 →
     ∃ l, LRU.insert 7 70 (LRU.create (K:=Z) (V:=Z) 0) = Some l ∧
       LRU.keys l = [7] ∧ LRU.value 7 l = Some 70).
Proof. exact (insert_into_new_lru (K:=Z) (V:=Z) 7 70 0). Defined.

Lemma capacity_one_shard_witness :
  reachable Example.hash Example2.small ∧
  contains Example.hash 7 0 Example2.small = Some false ∧
  capacities Example2.small
    !! Z.to_nat (bucketIndex Example.hash 7 0 Example2.small) = Some 1 ∧
  ∃ c', insert Example.hash 7 70 0 Example2.small = Some c' ∧
    recency (bucketIndex Example.hash 7 0 Example2.small) c' = Some [7] ∧
    sizes c' !! Z.to_nat (bucketIndex Example.hash 7 0 Example2.small) = Some 1.
Proof.
  assert (contains Example.hash 7 0 Example2.small = Some false) as Hc
    by (vm_compute; reflexivity).
  assert (capacities Example2.small
    !! Z.to_nat (bucketIndex Example.hash 7 0 Example2.small) = Some 1)
    as Hcap by reflexivity.
  split; [exact small_reachable|]. split; [exact Hc|]. split; [exact Hcap|].
  exact (capacity_one_shard Example.hash Example2.small 7 70 0
           small_reachable Hc Hcap).
Defined.

Lemma clear_restores_witness :
  args_ok 8 1 ∧ construct 8 1 = Some Example.fresh ∧
  run Example.hash Example2.fill_ops Example.fresh = Some Example2.full ∧
  clear Example2.full = Some Example.fresh.
Proof.
  assert (run Example.hash Example2.fill_ops Example.fresh = Some Example2.full)
    as Hrun by (vm_compute; reflexivity).
  split; [exact args_8_1|]. split; [exact fresh_constructed|].
  split; [exact Hrun|].
  exact (clear_restores Example.hash 8 1 Example.fresh Example2.fill_ops
           Example2.full args_8_1 fresh_constructed Hrun).
Defined.
End instance2.
